(** * Verification of [evaluateMathExpressionSimple]

    A shallow embedding of
    [src/components/utils/evaluate-math-expression-simple.ts]: the guard
    [evaluateMathExpressionSimple], the lexer [tokenize] and the
    recursive-descent evaluator [parseExpression] with its nested closures
    [peek], [consume], [parseAddSub], [parseMulDiv], [parsePercentage],
    [parseUnary] and [parsePrimary]; and of [containsMathOperators], the
    test by which the input component decides to call the evaluator.

    - A JavaScript string is the list of its UTF-16 code units, so
      [expr.length] is [length] and [expr[i]] is the [i]-th element.
    - A JavaScript number is a binary64 value of [SpecFloat] (one NaN,
      signed zeros and infinities, round to nearest even).
    - [throw new Error (msg)] is the completion [Throw msg]; the closures
      share the cursor [pos], which is threaded through a small state and
      error monad. *)

From Stdlib Require Import List ZArith NArith Bool Lia String Ascii.
From Stdlib Require Import Floats.SpecFloat.
Import ListNotations.

(* ===================================================================== *)
(** ** JavaScript strings *)
(* ===================================================================== *)

Module JsString.

(** A UTF-16 code unit. *)
Definition char := N.

Definition jsstring := list char.

Definition char_of_ascii (a : ascii) : char := N_of_ascii a.

(** An ASCII literal as a JavaScript string. *)
Definition str (s : string) : jsstring :=
  map char_of_ascii (list_ascii_of_string s).

Definition eqc (a b : char) : bool := N.eqb a b.

Definition c_dot    : char := 46%N.  (* . *)
Definition c_plus   : char := 43%N.  (* + *)
Definition c_minus  : char := 45%N.  (* - *)
Definition c_star   : char := 42%N.  (* * *)
Definition c_slash  : char := 47%N.  (* / *)
Definition c_pct    : char := 37%N.  (* % *)
Definition c_lparen : char := 40%N.  (* ( *)
Definition c_rparen : char := 41%N.  (* ) *)

(** [/\d/]: the ten ASCII digits. *)
Definition isDigit (c : char) : bool := (48 <=? c)%N && (c <=? 57)%N.

(** [/\s/], which is also the set [String.prototype.trim] strips:
    WhiteSpace (TAB, VT, FF, SP, NBSP, ZWNBSP and the category Zs) and
    LineTerminator (LF, CR, LS, PS). *)
Definition isWhiteSpace (c : char) : bool :=
  ((9 <=? c)%N && (c <=? 13)%N)
  || eqc c 32%N || eqc c 160%N || eqc c 5760%N
  || ((8192 <=? c)%N && (c <=? 8202)%N)
  || eqc c 8232%N || eqc c 8233%N || eqc c 8239%N || eqc c 8287%N
  || eqc c 12288%N || eqc c 65279%N.

(** [/[\d.]/] *)
Definition isDigitOrDot (c : char) : bool := isDigit c || eqc c c_dot.

(** [/[+\-*/%]/] *)
Definition isOperator (c : char) : bool :=
  eqc c c_plus || eqc c c_minus || eqc c c_star || eqc c c_slash
  || eqc c c_pct.

(** [char === "(" || char === ")"] *)
Definition isParen (c : char) : bool := eqc c c_lparen || eqc c c_rparen.

(** One character of the guard's class [[\d.\s+\-*/%()]]. *)
Definition isAdmissible (c : char) : bool :=
  isDigit c || eqc c c_dot || isWhiteSpace c
  || eqc c c_plus || eqc c c_minus || eqc c c_star || eqc c c_slash
  || eqc c c_pct || eqc c c_lparen || eqc c c_rparen.

Fixpoint trimStart (s : jsstring) : jsstring :=
  match s with
  | c :: r => if isWhiteSpace c then trimStart r else s
  | [] => []
  end.

Definition trimEnd (s : jsstring) : jsstring := rev (trimStart (rev s)).

(** [expr.trim()] *)
Definition trim (s : jsstring) : jsstring := trimEnd (trimStart s).

End JsString.
Import JsString.

(* ===================================================================== *)
(** ** JavaScript numbers *)
(* ===================================================================== *)

Module JsNumber.

Definition prec : Z := 53.
Definition emax : Z := 1024.

Definition float := spec_float.

Definition NaN : float := S754_nan.

(** The Number for an integer literal. *)
Definition ofZ (z : Z) : float := binary_normalize prec emax z 0 false.

(** The Number [m * 2^e]. *)
Definition ofDyadic (m e : Z) : float := binary_normalize prec emax m e false.

Definition add : float -> float -> float := SFadd prec emax.
Definition sub : float -> float -> float := SFsub prec emax.
Definition mul : float -> float -> float := SFmul prec emax.
Definition div : float -> float -> float := SFdiv prec emax.
Definition neg : float -> float := SFopp.

(** [Number.isFinite] *)
Definition isFinite (x : float) : bool :=
  match x with
  | S754_zero _ | S754_finite _ _ _ => true
  | S754_infinity _ | S754_nan => false
  end.

(** The Number nearest to [n / 10^k], for [n >= 0]. *)
Definition ofDecimal (n : Z) (k : nat) : float :=
  match n with
  | Z0 => S754_zero false
  | _ =>
      let '(q, e, l) :=
        SFdiv_core_binary prec emax n 0 (10 ^ Z.of_nat k) 0 in
      binary_round_aux prec emax false q e l
  end.

Definition digitValue (c : char) : Z := (Z.of_N c - 48)%Z.

(** The integer written by a string of decimal digits. *)
Definition digitsValue (s : jsstring) : Z :=
  fold_left (fun acc c => (10 * acc + digitValue c)%Z) s 0%Z.

(** The longest prefix of decimal digits, and what follows it. *)
Fixpoint spanDigits (s : jsstring) : jsstring * jsstring :=
  match s with
  | c :: r =>
      if isDigit c then let '(d, t) := spanDigits r in (c :: d, t)
      else ([], s)
  | [] => ([], [])
  end.

(** The platform's [parseFloat] on the strings the lexer passes to it:
    runs of digits and points.  The longest prefix that is a decimal
    literal (digits, then optionally a point and digits; or a point and
    at least one digit) is converted, and what follows it is ignored;
    without such a prefix the result is NaN.  Signs, exponents, leading
    blanks and [Infinity] cannot occur in such a run and are left out.
    The literal is rounded to the nearest binary64 value, ties to even. *)
Definition parseFloat (s : jsstring) : float :=
  let '(ip, rest) := spanDigits s in
  let fp :=
    match rest with
    | c :: r => if eqc c c_dot then fst (spanDigits r) else []
    | [] => []
    end in
  match ip ++ fp with
  | [] => NaN
  | ds => ofDecimal (digitsValue ds) (List.length fp)
  end.

End JsNumber.
Import JsNumber.

(* ===================================================================== *)
(** ** Completions *)
(* ===================================================================== *)

(** How a call ends: it returns, or it throws [new Error (msg)].
    [OutOfFuel] belongs to the embedding only: loops and recursive calls
    are counted down on a natural number, and the theorems show that the
    count the functions start from is never used up. *)
Inductive completion (A : Type) : Type :=
| Normal (a : A)
| Throw (msg : string)
| OutOfFuel.

Arguments Normal {A} a.
Arguments Throw {A} msg.
Arguments OutOfFuel {A}.

(* ===================================================================== *)
(** ** Tokenizer *)
(* ===================================================================== *)

(** [type Token = { type: "number"; value: number }
               | { type: "op"; value: string }
               | { type: "paren"; value: "(" | ")" }] *)
Inductive Token : Type :=
| TNumber (value : float)
| TOp (value : char)
| TParen (value : char).

(** The inner loop of the number branch,
    [while (i < expr.length && /[\d.]/.test(expr[i])) { num += expr[i]; i++ }]:
    the run read so far and the input from [i] on. *)
Fixpoint scanNumber (num : jsstring) (s : jsstring) : jsstring * jsstring :=
  match s with
  | c :: r => if isDigitOrDot c then scanNumber (num ++ [c]) r else (num, s)
  | [] => (num, [])
  end.

(** The loop [while (i < expr.length)] of [tokenize]; [s] is the input from
    index [i] on and [tokens] the array filled so far. *)
Fixpoint tokenize_loop (fuel : nat) (s : jsstring) (tokens : list Token)
  : completion (list Token) :=
  match fuel with
  | O => OutOfFuel
  | S fuel' =>
      match s with
      | [] => Normal tokens
      | char :: rest =>
          if isWhiteSpace char then tokenize_loop fuel' rest tokens
          else if isDigit char then
            let '(num, s') := scanNumber [] s in
            tokenize_loop fuel' s' (tokens ++ [TNumber (parseFloat num)])
          else if isOperator char then
            tokenize_loop fuel' rest (tokens ++ [TOp char])
          else if isParen char then
            tokenize_loop fuel' rest (tokens ++ [TParen char])
          else Throw "Invalid character"%string
      end
  end.

(** Every turn of the loop moves [i] forward, so one more turn than there
    are characters is enough. *)
Definition tokenize (expr : jsstring) : completion (list Token) :=
  tokenize_loop (S (List.length expr)) expr [].

(* ===================================================================== *)
(** ** Recursive descent parser *)
(* ===================================================================== *)

(** A closure of [parseExpression]: it reads the cursor [pos], and either
    returns a value with the new cursor or throws. *)
Definition Parser (A : Type) : Type := nat -> completion (A * nat).

Definition ret {A} (a : A) : Parser A := fun pos => Normal (a, pos).

Definition throw {A} (msg : string) : Parser A := fun _ => Throw msg.

Definition bind {A B} (p : Parser A) (k : A -> Parser B) : Parser B :=
  fun pos =>
    match p pos with
    | Normal (a, pos') => k a pos'
    | Throw msg => Throw msg
    | OutOfFuel => OutOfFuel
    end.

Declare Scope parser_scope.
Delimit Scope parser_scope with parser.
Notation "x <- p ;; k" := (bind p (fun x => k))
  (at level 61, p at next level, right associativity) : parser_scope.
Notation "p ;; k" := (bind p (fun _ => k))
  (at level 61, right associativity) : parser_scope.

(** [peek()?.type === "op" && peek()!.value === c] *)
Definition isOp (t : option Token) (c : char) : bool :=
  match t with
  | Some (TOp v) => eqc v c
  | _ => false
  end.

(** [peek()?.type !== "paren" || peek()!.value !== c], negated. *)
Definition isParenTok (t : option Token) (c : char) : bool :=
  match t with
  | Some (TParen v) => eqc v c
  | _ => false
  end.

(** [tok.value === c] for a one-character string [c]; the value of a
    number token is never equal to a string. *)
Definition valueIs (tok : Token) (c : char) : bool :=
  match tok with
  | TOp v | TParen v => eqc v c
  | TNumber _ => false
  end.

Section Closures.

(** [const tokens = tokenize(expr)] *)
Variable tokens : list Token.

Local Open Scope parser_scope.

(** [return tokens[pos]] *)
Definition peek : Parser (option Token) :=
  fun pos => Normal (nth_error tokens pos, pos).

(** [return tokens[pos++]!] *)
Definition consume : Parser (option Token) :=
  fun pos => Normal (nth_error tokens pos, S pos).

(** [consume().value].  Off the end of the array [consume()] is
    [undefined], and reading [value] off it is a TypeError; every call
    follows a [peek] that found a token, so this does not happen. *)
Definition consumeOp : Parser Token :=
  t <- consume ;;
  match t with
  | Some tok => ret tok
  | None => throw "TypeError"
  end.

(** The five mutually recursive closures.  [parseAddSub_while] and
    [parseMulDiv_while] are the [while] loops of [parseAddSub] and
    [parseMulDiv], with the local [left] as their argument. *)
Fixpoint parseAddSub (fuel : nat) : Parser float :=
  match fuel with
  | O => fun _ => OutOfFuel
  | S fuel' =>
      left <- parseMulDiv fuel' ;;
      parseAddSub_while fuel' left
  end

with parseAddSub_while (fuel : nat) (left : float) : Parser float :=
  match fuel with
  | O => fun _ => OutOfFuel
  | S fuel' =>
      t <- peek ;;
      if isOp t c_plus || isOp t c_minus then
        op <- consumeOp ;;
        right <- parseMulDiv fuel' ;;
        parseAddSub_while fuel'
          (if valueIs op c_plus then add left right else sub left right)
      else ret left
  end

with parseMulDiv (fuel : nat) : Parser float :=
  match fuel with
  | O => fun _ => OutOfFuel
  | S fuel' =>
      left <- parsePercentage fuel' ;;
      parseMulDiv_while fuel' left
  end

with parseMulDiv_while (fuel : nat) (left : float) : Parser float :=
  match fuel with
  | O => fun _ => OutOfFuel
  | S fuel' =>
      t <- peek ;;
      if isOp t c_star || isOp t c_slash then
        op <- consumeOp ;;
        right <- parsePercentage fuel' ;;
        parseMulDiv_while fuel'
          (if valueIs op c_star then mul left right else div left right)
      else ret left
  end

with parsePercentage (fuel : nat) : Parser float :=
  match fuel with
  | O => fun _ => OutOfFuel
  | S fuel' =>
      left <- parseUnary fuel' ;;
      t <- peek ;;
      if isOp t c_pct then
        consume ;;
        ret (div left (ofZ 100))
      else ret left
  end

with parseUnary (fuel : nat) : Parser float :=
  match fuel with
  | O => fun _ => OutOfFuel
  | S fuel' =>
      t <- peek ;;
      if isOp t c_minus || isOp t c_plus then
        op <- consumeOp ;;
        value <- parseUnary fuel' ;;
        ret (if valueIs op c_minus then neg value else value)
      else parsePrimary fuel'
  end

with parsePrimary (fuel : nat) : Parser float :=
  match fuel with
  | O => fun _ => OutOfFuel
  | S fuel' =>
      token <- peek ;;
      match token with
      | None => throw "Unexpected end of expression"
      | Some (TNumber value) => consume ;; ret value
      | Some (TParen v) =>
          if eqc v c_lparen then
            consume ;;
            result <- parseAddSub fuel' ;;
            t <- peek ;;
            if isParenTok t c_rparen then consume ;; ret result
            else throw "Missing closing parenthesis"
          else throw "Unexpected token"
      | Some (TOp _) => throw "Unexpected token"
      end
  end.

(** A cycle of the five closures reads at least one token, and so does
    each turn of a loop. *)
Definition parseFuel : nat := 5 * List.length tokens + 5.

(** The body of [parseExpression] below [const tokens = tokenize(expr)]. *)
Definition parseTokens : completion float :=
  match parseAddSub parseFuel 0 with
  | Normal (result, pos) =>
      if pos <? List.length tokens
      then Throw "Unexpected token after expression"
      else Normal result
  | Throw msg => Throw msg
  | OutOfFuel => OutOfFuel
  end.

End Closures.

Definition parseExpression (expr : jsstring) : completion float :=
  match tokenize expr with
  | Normal tokens => parseTokens tokens
  | Throw msg => Throw msg
  | OutOfFuel => OutOfFuel
  end.

(* ===================================================================== *)
(** ** The guard *)
(* ===================================================================== *)

(** [number | undefined] *)
Definition result : Type := option float.
Definition undefined : result := None.

Section Guard.

(** The call in the [try] block. *)
Variable parse : jsstring -> completion float.

Definition evaluateMathExpressionSimple_with (expr : jsstring)
  : completion result :=
  let expr := trim expr in
  if (200 <? List.length expr) || (match expr with [] => true | _ => false end)
  then Normal undefined
  else if negb (forallb isAdmissible expr)
  then Normal undefined
  else
    match parse expr with
    | Normal result => Normal (if isFinite result then Some result else undefined)
    | Throw _ => Normal undefined
    | OutOfFuel => OutOfFuel
    end.

End Guard.

Definition evaluateMathExpressionSimple : jsstring -> completion result :=
  evaluateMathExpressionSimple_with parseExpression.

(* ===================================================================== *)
(** ** The test for math operators of the input component *)
(* ===================================================================== *)

(** [s.startsWith(p)] *)
Fixpoint startsWith (p s : jsstring) : bool :=
  match p, s with
  | [], _ => true
  | _ :: _, [] => false
  | a :: p', b :: s' => eqc a b && startsWith p' s'
  end.

(** [s.replace(search, "")] for a string [search]: the first occurrence of
    [search] is taken out, and [s] is returned as it is when there is none;
    the empty [search] occurs at index 0. *)
Fixpoint removeFirst (search s : jsstring) : jsstring :=
  if startsWith search s then skipn (List.length search) s
  else
    match s with
    | [] => []
    | c :: r => c :: removeFirst search r
    end.

(** [prefix || ""] for an optional string. *)
Definition orEmpty (o : option jsstring) : jsstring :=
  match o with
  | Some s => s
  | None => []
  end.

(** [/[*/%()+]/] *)
Definition isMathChar (c : char) : bool :=
  eqc c c_star || eqc c c_slash || eqc c c_pct || eqc c c_lparen
  || eqc c c_rparen || eqc c c_plus.

(** [/[-+]/] *)
Definition isSign (c : char) : bool := eqc c c_minus || eqc c c_plus.

(** [/[^-+][-+]/.test(s)]: a sign right after a character that is not a
    sign. *)
Fixpoint signAfterOther (s : jsstring) : bool :=
  match s with
  | a :: (b :: _) as r => (negb (isSign a) && isSign b) || signAfterOther r
  | _ => false
  end.

(** [containsMathOperators] of [CurrencyInput], with the props [prefix]
    and [suffix] it closes over. *)
Definition containsMathOperators (prefix suffix : option jsstring)
    (value : jsstring) : bool :=
  let cleanValue :=
    removeFirst (orEmpty suffix) (removeFirst (orEmpty prefix) value) in
  if existsb isMathChar cleanValue then true
  else if signAfterOther cleanValue then true
  else false.

(* ===================================================================== *)
(** ** Predicates of the statements *)
(* ===================================================================== *)

(** [s] is empty or starts with a character other than a digit or a
    point: a run of digits and points that ends before [s] is maximal. *)
Definition headNotNumeric (s : jsstring) : Prop :=
  match s with
  | [] => True
  | c :: _ => isDigitOrDot c = false
  end.

(** [s] is empty or ends with a character other than a digit or a point. *)
Definition lastNotNumeric (s : jsstring) : Prop := headNotNumeric (rev s).

(** The tokens [l], then what [c] returns. *)
Definition prepend (l : list Token) (c : completion (list Token))
  : completion (list Token) :=
  match c with
  | Normal t => Normal (l ++ t)
  | Throw msg => Throw msg
  | OutOfFuel => OutOfFuel
  end.

(** The tokens of [c1], then the tokens of [c2]; the first failure wins. *)
Definition tokenizeThen (c1 c2 : completion (list Token))
  : completion (list Token) :=
  match c1 with
  | Normal t => prepend t c2
  | Throw msg => Throw msg
  | OutOfFuel => OutOfFuel
  end.

(** What a closure may do from the cursor [pos]: throw, or return with the
    cursor moved forward (by at least one token when [strict]) and still
    within the tokens; it does not run out of fuel. *)
Definition advances (tokens : list Token) (strict : bool) (pos : nat)
    (c : completion (float * nat)) : Prop :=
  match c with
  | Normal (_, pos') =>
      (if strict then pos < pos' else pos <= pos')
      /\ pos' <= List.length tokens
  | Throw _ => True
  | OutOfFuel => False
  end.

(** The fuel each closure needs at the cursor [pos], and what it does
    when it has it. *)
Definition fuelInvariant (tokens : list Token) (fuel : nat) : Prop :=
  let L := List.length tokens in
  (forall pos, pos <= L -> 5 * (L - pos) + 5 <= fuel ->
     advances tokens true pos (parseAddSub tokens fuel pos))
  /\ (forall left pos, pos <= L -> 5 * (L - pos) + 1 <= fuel ->
     advances tokens false pos (parseAddSub_while tokens fuel left pos))
  /\ (forall pos, pos <= L -> 5 * (L - pos) + 4 <= fuel ->
     advances tokens true pos (parseMulDiv tokens fuel pos))
  /\ (forall left pos, pos <= L -> 5 * (L - pos) + 1 <= fuel ->
     advances tokens false pos (parseMulDiv_while tokens fuel left pos))
  /\ (forall pos, pos <= L -> 5 * (L - pos) + 3 <= fuel ->
     advances tokens true pos (parsePercentage tokens fuel pos))
  /\ (forall pos, pos <= L -> 5 * (L - pos) + 2 <= fuel ->
     advances tokens true pos (parseUnary tokens fuel pos))
  /\ (forall pos, pos <= L -> 5 * (L - pos) + 1 <= fuel ->
     advances tokens true pos (parsePrimary tokens fuel pos)).

(** A point that continues no number: the first character of the input,
    or one that follows a character other than a digit or a point. *)
Definition StrayDot (s : jsstring) : Prop :=
  (exists post, s = c_dot :: post)
  \/ (exists pre c post,
        s = pre ++ c :: c_dot :: post /\ isDigitOrDot c = false).

(** No stray point in [s], where [prev] tells whether the character before
    [s] is a digit or a point. *)
Fixpoint noStrayDot (prev : bool) (s : jsstring) : bool :=
  match s with
  | [] => true
  | c :: r => (negb (eqc c c_dot) || prev) && noStrayDot (isDigitOrDot c) r
  end.

(** Only characters of the guard's class, and no stray point. *)
Definition lexable (s : jsstring) : bool :=
  forallb isAdmissible s && noStrayDot false s.

(** The operator characters and the two parentheses, as the tokenizer
    writes them into its tokens. *)
Definition wellFormedToken (t : Token) : Prop :=
  match t with
  | TNumber _ => True
  | TOp v => isOperator v = true
  | TParen v => isParen v = true
  end.

(* ===================================================================== *)
(** ** The grammar of the parser *)
(* ===================================================================== *)

(** The expressions the five closures read, one type per closure; the
    chains of [parseAddSub] and [parseMulDiv] grow to the right, as their
    loops do. *)
Inductive AddSub : Type :=
| AS_one (m : MulDiv)
| AS_add (e : AddSub) (m : MulDiv)
| AS_sub (e : AddSub) (m : MulDiv)
with MulDiv : Type :=
| MD_one (q : Percentage)
| MD_mul (m : MulDiv) (q : Percentage)
| MD_div (m : MulDiv) (q : Percentage)
with Percentage : Type :=
| Pct_plain (u : Unary)
| Pct_percent (u : Unary)
with Unary : Type :=
| U_neg (u : Unary)
| U_pos (u : Unary)
| U_primary (p : Primary)
with Primary : Type :=
| P_number (value : float)
| P_paren (e : AddSub).

(** The tokens that write an expression. *)
Fixpoint tokensOfAddSub (e : AddSub) : list Token :=
  match e with
  | AS_one m => tokensOfMulDiv m
  | AS_add e m => tokensOfAddSub e ++ TOp c_plus :: tokensOfMulDiv m
  | AS_sub e m => tokensOfAddSub e ++ TOp c_minus :: tokensOfMulDiv m
  end
with tokensOfMulDiv (m : MulDiv) : list Token :=
  match m with
  | MD_one q => tokensOfPercentage q
  | MD_mul m q => tokensOfMulDiv m ++ TOp c_star :: tokensOfPercentage q
  | MD_div m q => tokensOfMulDiv m ++ TOp c_slash :: tokensOfPercentage q
  end
with tokensOfPercentage (q : Percentage) : list Token :=
  match q with
  | Pct_plain u => tokensOfUnary u
  | Pct_percent u => tokensOfUnary u ++ [TOp c_pct]
  end
with tokensOfUnary (u : Unary) : list Token :=
  match u with
  | U_neg u => TOp c_minus :: tokensOfUnary u
  | U_pos u => TOp c_plus :: tokensOfUnary u
  | U_primary p => tokensOfPrimary p
  end
with tokensOfPrimary (p : Primary) : list Token :=
  match p with
  | P_number value => [TNumber value]
  | P_paren e => TParen c_lparen :: tokensOfAddSub e ++ [TParen c_rparen]
  end.

(** The number an expression stands for. *)
Fixpoint valueOfAddSub (e : AddSub) : float :=
  match e with
  | AS_one m => valueOfMulDiv m
  | AS_add e m => add (valueOfAddSub e) (valueOfMulDiv m)
  | AS_sub e m => sub (valueOfAddSub e) (valueOfMulDiv m)
  end
with valueOfMulDiv (m : MulDiv) : float :=
  match m with
  | MD_one q => valueOfPercentage q
  | MD_mul m q => mul (valueOfMulDiv m) (valueOfPercentage q)
  | MD_div m q => div (valueOfMulDiv m) (valueOfPercentage q)
  end
with valueOfPercentage (q : Percentage) : float :=
  match q with
  | Pct_plain u => valueOfUnary u
  | Pct_percent u => div (valueOfUnary u) (ofZ 100)
  end
with valueOfUnary (u : Unary) : float :=
  match u with
  | U_neg u => SFopp (valueOfUnary u)
  | U_pos u => valueOfUnary u
  | U_primary p => valueOfPrimary p
  end
with valueOfPrimary (p : Primary) : float :=
  match p with
  | P_number value => value
  | P_paren e => valueOfAddSub e
  end.

Scheme AddSub_mut := Induction for AddSub Sort Prop
  with MulDiv_mut := Induction for MulDiv Sort Prop
  with Percentage_mut := Induction for Percentage Sort Prop
  with Unary_mut := Induction for Unary Sort Prop
  with Primary_mut := Induction for Primary Sort Prop.

Combined Scheme grammar_mutind from
  AddSub_mut, MulDiv_mut, Percentage_mut, Unary_mut, Primary_mut.

(** [q] does with more fuel what [p] does when [p] has enough. *)
Definition refines {A : Type} (p q : Parser A) : Prop :=
  forall pos, p pos <> OutOfFuel -> q pos = p pos.

(** From some fuel on, the closure [p] ends in [r] from the cursor [pos]. *)
Definition yields {A : Type} (p : nat -> Parser A) (pos : nat)
    (r : completion (A * nat)) : Prop :=
  exists f0, forall f, f0 <= f -> p f pos = r.

(** Each closure does with one more unit of fuel what it does with
    [fuel], when that is enough. *)
Definition fuelStable (tokens : list Token) (fuel : nat) : Prop :=
  refines (parseAddSub tokens fuel) (parseAddSub tokens (S fuel))
  /\ (forall lf, refines (parseAddSub_while tokens fuel lf)
                   (parseAddSub_while tokens (S fuel) lf))
  /\ refines (parseMulDiv tokens fuel) (parseMulDiv tokens (S fuel))
  /\ (forall lf, refines (parseMulDiv_while tokens fuel lf)
                   (parseMulDiv_while tokens (S fuel) lf))
  /\ refines (parsePercentage tokens fuel) (parsePercentage tokens (S fuel))
  /\ refines (parseUnary tokens fuel) (parseUnary tokens (S fuel))
  /\ refines (parsePrimary tokens fuel) (parsePrimary tokens (S fuel)).

(** The tokens from the cursor on are those of the expression, then
    [rest]; each closure then returns the value of the expression and
    leaves the cursor on [rest].  [parsePercentage] needs [rest] not to
    begin with [%]; [parseMulDiv] and [parseAddSub] are described up to
    their loops, which go on into [rest]. *)
Definition readsPrimary (p : Primary) : Prop :=
  forall tokens pos rest,
    skipn pos tokens = tokensOfPrimary p ++ rest ->
    yields (parsePrimary tokens) pos
      (Normal (valueOfPrimary p, pos + List.length (tokensOfPrimary p))).

Definition readsUnary (u : Unary) : Prop :=
  forall tokens pos rest,
    skipn pos tokens = tokensOfUnary u ++ rest ->
    yields (parseUnary tokens) pos
      (Normal (valueOfUnary u, pos + List.length (tokensOfUnary u))).

Definition readsPercentage (q : Percentage) : Prop :=
  forall tokens pos rest,
    skipn pos tokens = tokensOfPercentage q ++ rest ->
    isOp (hd_error rest) c_pct = false ->
    yields (parsePercentage tokens) pos
      (Normal (valueOfPercentage q,
               pos + List.length (tokensOfPercentage q))).

Definition readsMulDiv (m : MulDiv) : Prop :=
  forall tokens pos rest r,
    skipn pos tokens = tokensOfMulDiv m ++ rest ->
    isOp (hd_error rest) c_pct = false ->
    yields (fun f => parseMulDiv_while tokens f (valueOfMulDiv m))
      (pos + List.length (tokensOfMulDiv m)) r ->
    yields (parseMulDiv tokens) pos r.

Definition readsAddSub (e : AddSub) : Prop :=
  forall tokens pos rest r,
    skipn pos tokens = tokensOfAddSub e ++ rest ->
    isOp (hd_error rest) c_pct = false ->
    isOp (hd_error rest) c_star = false ->
    isOp (hd_error rest) c_slash = false ->
    yields (fun f => parseAddSub_while tokens f (valueOfAddSub e))
      (pos + List.length (tokensOfAddSub e)) r ->
    yields (parseAddSub tokens) pos r.

(** What a closure has read when it returns with the cursor at [p] is an
    expression of its grammar, and what it returns is its value.  A loop
    that starts with the expression [e0] read from [start] extends it. *)
Definition readsOnlyGrammar (tokens : list Token) (fuel : nat) : Prop :=
  (forall pos v p,
     parseAddSub tokens fuel pos = Normal (v, p) ->
     exists e, skipn pos tokens = tokensOfAddSub e ++ skipn p tokens
               /\ v = valueOfAddSub e)
  /\ (forall lf pos v p start e0,
        parseAddSub_while tokens fuel lf pos = Normal (v, p) ->
        skipn start tokens = tokensOfAddSub e0 ++ skipn pos tokens ->
        lf = valueOfAddSub e0 ->
        exists e, skipn start tokens = tokensOfAddSub e ++ skipn p tokens
                  /\ v = valueOfAddSub e)
  /\ (forall pos v p,
        parseMulDiv tokens fuel pos = Normal (v, p) ->
        exists m, skipn pos tokens = tokensOfMulDiv m ++ skipn p tokens
                  /\ v = valueOfMulDiv m)
  /\ (forall lf pos v p start m0,
        parseMulDiv_while tokens fuel lf pos = Normal (v, p) ->
        skipn start tokens = tokensOfMulDiv m0 ++ skipn pos tokens ->
        lf = valueOfMulDiv m0 ->
        exists m, skipn start tokens = tokensOfMulDiv m ++ skipn p tokens
                  /\ v = valueOfMulDiv m)
  /\ (forall pos v p,
        parsePercentage tokens fuel pos = Normal (v, p) ->
        exists q, skipn pos tokens = tokensOfPercentage q ++ skipn p tokens
                  /\ v = valueOfPercentage q)
  /\ (forall pos v p,
        parseUnary tokens fuel pos = Normal (v, p) ->
        exists u, skipn pos tokens = tokensOfUnary u ++ skipn p tokens
                  /\ v = valueOfUnary u)
  /\ (forall pos v p,
        parsePrimary tokens fuel pos = Normal (v, p) ->
        exists q, skipn pos tokens = tokensOfPrimary q ++ skipn p tokens
                  /\ v = valueOfPrimary q).

(** The errors the five closures throw. *)
Definition closureError (msg : string) : Prop :=
  msg = "Unexpected end of expression"%string
  \/ msg = "Unexpected token"%string
  \/ msg = "Missing closing parenthesis"%string.

(** A closure that throws throws one of its own errors. *)
Definition throwsOwn {A : Type} (c : completion A) : Prop :=
  match c with
  | Throw msg => closureError msg
  | _ => True
  end.

Definition throwsOwnErrors (tokens : list Token) (fuel : nat) : Prop :=
  (forall pos, throwsOwn (parseAddSub tokens fuel pos))
  /\ (forall lf pos, throwsOwn (parseAddSub_while tokens fuel lf pos))
  /\ (forall pos, throwsOwn (parseMulDiv tokens fuel pos))
  /\ (forall lf pos, throwsOwn (parseMulDiv_while tokens fuel lf pos))
  /\ (forall pos, throwsOwn (parsePercentage tokens fuel pos))
  /\ (forall pos, throwsOwn (parseUnary tokens fuel pos))
  /\ (forall pos, throwsOwn (parsePrimary tokens fuel pos)).

(* ===================================================================== *)
(** ** Lexemes *)
(* ===================================================================== *)

(** The pieces of text the tokenizer turns into one token each: a run of
    digits and points from a digit on, an operator character, a
    parenthesis. *)
Inductive Lexeme : Type :=
| LNumber (c : char) (run : jsstring)
| LOp (c : char)
| LParen (c : char).

Definition lexemeOk (l : Lexeme) : Prop :=
  match l with
  | LNumber c run => isDigit c = true /\ forallb isDigitOrDot run = true
  | LOp c => isOperator c = true
  | LParen c => isParen c = true
  end.

Definition lexemeChars (l : Lexeme) : jsstring :=
  match l with
  | LNumber c run => c :: run
  | LOp c => [c]
  | LParen c => [c]
  end.

Definition lexemeToken (l : Lexeme) : Token :=
  match l with
  | LNumber c run => TNumber (parseFloat (c :: run))
  | LOp c => TOp c
  | LParen c => TParen c
  end.

(** No number lexeme is followed at once by another one. *)
Fixpoint numbersApart (ls : list Lexeme) : Prop :=
  match ls with
  | [] => True
  | l :: r =>
      match l, r with
      | LNumber _ _, LNumber _ _ :: _ => False
      | _, _ => True
      end
      /\ numbersApart r
  end.

(* ===================================================================== *)
(** ** The embedding at work *)
(* ===================================================================== *)

(** 0.1 is 0x1.999999999999ap-4. *)
Example parseFloat_tenth :
  parseFloat (str "0.1") = S754_finite false 7205759403792794 (-56).
Proof. reflexivity. Qed.

(** What follows the decimal literal is ignored. *)
Example parseFloat_second_point :
  parseFloat (str "1.2.3") = parseFloat (str "1.2")
  /\ parseFloat (str "7.") = ofZ 7.
Proof. split; reflexivity. Qed.

Example tokenize_sum_product :
  tokenize (str "2 + 3 * 4")
  = Normal [TNumber (ofZ 2); TOp c_plus; TNumber (ofZ 3); TOp c_star;
            TNumber (ofZ 4)].
Proof. reflexivity. Qed.

Example parseExpression_nested :
  parseExpression (str "-(1.5 + 2.5) * 2 / 4") = Normal (ofZ (-2)).
Proof. vm_compute. reflexivity. Qed.

Example evaluate_missing_operand :
  parseExpression (str "2 +") = Throw "Unexpected end of expression"
  /\ parseExpression (str "2 * )") = Throw "Unexpected token"
  /\ evaluateMathExpressionSimple (str "2 +") = Normal undefined.
Proof. repeat split; vm_compute; reflexivity. Qed.

(* ===================================================================== *)
(** ** Characters and trimming *)
(* ===================================================================== *)

Lemma isAdmissible_not_white (c : char) :
  isAdmissible c = false -> isWhiteSpace c = false.
Proof.
  unfold isAdmissible. intros H.
  destruct (isWhiteSpace c); [|reflexivity].
  rewrite !orb_true_r in H. simpl in H. rewrite ?orb_true_r in H.
  destruct (isDigit c || eqc c c_dot); discriminate.
Qed.

Lemma isDigit_excl (c : char) :
  isDigit c = true ->
  isWhiteSpace c = false /\ eqc c c_dot = false /\ isDigitOrDot c = true.
Proof.
  unfold isDigit, isWhiteSpace, isDigitOrDot, eqc, c_dot. intros H.
  apply andb_true_iff in H. destruct H as [H1 H2].
  apply N.leb_le in H1. apply N.leb_le in H2.
  repeat split.
  - repeat (apply orb_false_iff; split);
      try (apply N.eqb_neq; lia);
      apply andb_false_iff; [right|left]; apply N.leb_gt; lia.
  - apply N.eqb_neq; lia.
  - unfold isDigit.
    replace ((48 <=? c)%N) with true by (symmetry; apply N.leb_le; lia).
    replace ((c <=? 57)%N) with true by (symmetry; apply N.leb_le; lia).
    reflexivity.
Qed.

Lemma dot_excl (c : char) :
  eqc c c_dot = true ->
  isWhiteSpace c = false /\ isDigit c = false /\ isOperator c = false
  /\ isParen c = false.
Proof.
  unfold eqc. intros H. apply N.eqb_eq in H. subst c. vm_compute. auto.
Qed.

Lemma In_trimStart (c : char) (s : jsstring) :
  In c s -> isWhiteSpace c = false -> In c (trimStart s).
Proof.
  induction s as [|a s IH]; simpl; intros Hin Hc; [contradiction|].
  destruct (isWhiteSpace a) eqn:Ha.
  - destruct Hin as [->|Hin]; [congruence|auto].
  - exact Hin.
Qed.

Lemma In_trim (c : char) (s : jsstring) :
  In c s -> isWhiteSpace c = false -> In c (trim s).
Proof.
  intros Hin Hc. unfold trim, trimEnd.
  apply -> in_rev. apply In_trimStart; [|exact Hc].
  apply -> in_rev. apply In_trimStart; assumption.
Qed.

Lemma eqc_eq (a b : char) : eqc a b = true <-> a = b.
Proof. apply N.eqb_eq. Qed.

Lemma isAdmissible_classes (c : char) :
  isAdmissible c
  = isWhiteSpace c || isDigit c || eqc c c_dot || isOperator c || isParen c.
Proof.
  unfold isAdmissible, isOperator, isParen.
  destruct (isWhiteSpace c), (isDigit c), (eqc c c_dot), (eqc c c_plus),
    (eqc c c_minus), (eqc c c_star), (eqc c c_slash), (eqc c c_pct),
    (eqc c c_lparen), (eqc c c_rparen); reflexivity.
Qed.

Lemma isWhiteSpace_excl (c : char) :
  isWhiteSpace c = true -> isDigitOrDot c = false.
Proof.
  intros H. unfold isDigitOrDot.
  destruct (isDigit c) eqn:Hd.
  - apply isDigit_excl in Hd. destruct Hd as [Hw _]. congruence.
  - destruct (eqc c c_dot) eqn:He; [|reflexivity].
    apply dot_excl in He. destruct He as [Hw _]. congruence.
Qed.

Lemma isOperator_excl (c : char) :
  isOperator c = true -> isDigitOrDot c = false.
Proof.
  unfold isOperator. intros H.
  repeat (apply orb_true_iff in H; destruct H as [H|H]);
    apply eqc_eq in H; subst c; reflexivity.
Qed.

Lemma isParen_excl (c : char) :
  isParen c = true -> isDigitOrDot c = false.
Proof.
  unfold isParen. intros H.
  apply orb_true_iff in H; destruct H as [H|H];
    apply eqc_eq in H; subst c; reflexivity.
Qed.

Lemma isDigitOrDot_admissible (c : char) :
  isDigitOrDot c = true -> isAdmissible c = true.
Proof.
  rewrite isAdmissible_classes. unfold isDigitOrDot. intros H.
  apply orb_true_iff in H. destruct H as [-> | ->];
    rewrite ?orb_true_r; reflexivity.
Qed.

(* ===================================================================== *)
(** ** The inner loop of the number branch *)
(* ===================================================================== *)

Lemma scanNumber_run (run rest num : jsstring) :
  forallb isDigitOrDot run = true ->
  headNotNumeric rest ->
  scanNumber num (run ++ rest) = (num ++ run, rest).
Proof.
  revert num. induction run as [|c run IH]; intros num Hrun Hrest.
  - rewrite app_nil_r. simpl. destruct rest as [|c r]; [reflexivity|].
    simpl in *. rewrite Hrest. reflexivity.
  - simpl in Hrun. apply andb_true_iff in Hrun. destruct Hrun as [Hc Hrun].
    simpl. rewrite Hc. rewrite IH by assumption.
    rewrite <- app_assoc. reflexivity.
Qed.

Lemma scanNumber_spec (s num : jsstring) :
  exists run rest,
    s = run ++ rest /\ forallb isDigitOrDot run = true
    /\ headNotNumeric rest /\ scanNumber num s = (num ++ run, rest).
Proof.
  revert num. induction s as [|c s IH]; intros num.
  - exists [], []. simpl. rewrite app_nil_r. auto.
  - simpl. destruct (isDigitOrDot c) eqn:Hc.
    + destruct (IH (num ++ [c])) as (run & rest & Hs & Hrun & Hrest & Hscan).
      exists (c :: run), rest. simpl. rewrite Hc, Hrun, Hscan, <- app_assoc.
      subst s. auto.
    + exists [], (c :: s). simpl. rewrite app_nil_r. auto.
Qed.

(** From a digit on, the inner loop moves the cursor forward. *)
Lemma scanNumber_digit (c : char) (r : jsstring) :
  isDigit c = true ->
  exists run rest,
    r = run ++ rest /\ forallb isDigitOrDot run = true
    /\ headNotNumeric rest /\ scanNumber [] (c :: r) = (c :: run, rest).
Proof.
  intros Hc. apply isDigit_excl in Hc. destruct Hc as (_ & _ & Hc).
  simpl. rewrite Hc.
  destruct (scanNumber_spec r [c]) as (run & rest & Hs & Hrun & Hrest & Hscan).
  exists run, rest. auto.
Qed.

(* ===================================================================== *)
(** ** The loop of the tokenizer *)
(* ===================================================================== *)

Ltac char_case c :=
  let Hw := fresh "Hw" in
  let Hd := fresh "Hd" in
  let Ho := fresh "Ho" in
  let Hp := fresh "Hp" in
  destruct (isWhiteSpace c) eqn:Hw;
  [|destruct (isDigit c) eqn:Hd;
    [|destruct (isOperator c) eqn:Ho;
      [|destruct (isParen c) eqn:Hp]]].

(** Fuel beyond the length of the input changes nothing. *)
Lemma tokenize_loop_fuel (f1 f2 : nat) (s : jsstring) (acc : list Token) :
  List.length s < f1 -> List.length s < f2 ->
  tokenize_loop f1 s acc = tokenize_loop f2 s acc.
Proof.
  revert f2 s acc.
  induction f1 as [|f1 IH]; intros f2 s acc H1 H2; [lia|].
  destruct f2 as [|f2]; [lia|].
  destruct s as [|c r]; [reflexivity|].
  simpl in H1, H2. cbn [tokenize_loop].
  char_case c; try reflexivity; try (apply IH; lia).
  destruct (scanNumber_digit c r Hd) as (run & rest & Hs & _ & _ & Hscan).
  rewrite Hscan. subst r. rewrite length_app in H1, H2.
  apply IH; lia.
Qed.

Lemma prepend_prepend (a b : list Token) (c : completion (list Token)) :
  prepend (a ++ b) c = prepend a (prepend b c).
Proof. destruct c; simpl; rewrite ?app_assoc; reflexivity. Qed.

(** The array filled so far is only appended to. *)
Lemma tokenize_loop_acc (fuel : nat) (s : jsstring) (acc : list Token) :
  tokenize_loop fuel s acc = prepend acc (tokenize_loop fuel s []).
Proof.
  revert s acc. induction fuel as [|fuel IH]; intros s acc; [reflexivity|].
  destruct s as [|c r]; [simpl; rewrite app_nil_r; reflexivity|].
  cbn [tokenize_loop].
  char_case c; try reflexivity; try apply IH;
    try (rewrite IH, (IH _ ([] ++ _)); apply prepend_prepend).
  destruct (scanNumber [] (c :: r)) as [num s'].
  rewrite IH, (IH _ ([] ++ _)). apply prepend_prepend.
Qed.

(* ===================================================================== *)
(** ** Which inputs the tokenizer accepts *)
(* ===================================================================== *)

Lemma lexable_cons_sep (c : char) (r : jsstring) :
  isAdmissible c = true -> isDigitOrDot c = false ->
  lexable (c :: r) = lexable r.
Proof.
  intros Ha Hn. unfold lexable. simpl. rewrite Ha, Hn.
  unfold isDigitOrDot in Hn. apply orb_false_iff in Hn.
  destruct Hn as [_ ->]. reflexivity.
Qed.

Lemma lexable_cons_bad (c : char) (r : jsstring) :
  isWhiteSpace c = false -> isDigit c = false ->
  isOperator c = false -> isParen c = false ->
  lexable (c :: r) = false.
Proof.
  intros Hw Hd Ho Hp. unfold lexable. simpl.
  rewrite isAdmissible_classes, Hw, Hd, Ho, Hp.
  destruct (eqc c c_dot); simpl; [|reflexivity].
  apply andb_false_r.
Qed.

Lemma numeric_run_lexable (run rest : jsstring) :
  forallb isDigitOrDot run = true -> headNotNumeric rest ->
  forallb isAdmissible (run ++ rest) && noStrayDot true (run ++ rest)
  = lexable rest.
Proof.
  intros Hrun Hrest. induction run as [|c run IH].
  - unfold lexable. destruct rest as [|c r]; [reflexivity|].
    simpl in *. unfold isDigitOrDot in Hrest.
    apply orb_false_iff in Hrest. destruct Hrest as [_ ->]. reflexivity.
  - simpl in Hrun. apply andb_true_iff in Hrun. destruct Hrun as [Hc Hrun].
    simpl. rewrite Hc, (isDigitOrDot_admissible c Hc), orb_true_r.
    simpl. apply IH. exact Hrun.
Qed.

(** On input shorter than the fuel the loop returns exactly on the lexable
    strings, and throws on the others. *)
Lemma tokenize_loop_lexable (fuel : nat) (s : jsstring) (acc : list Token) :
  List.length s < fuel ->
  if lexable s
  then exists l, tokenize_loop fuel s acc = Normal (acc ++ l)
  else tokenize_loop fuel s acc = Throw "Invalid character".
Proof.
  revert s acc. induction fuel as [|fuel IH]; intros s acc Hlen; [lia|].
  destruct s as [|c r].
  - exists []. simpl. rewrite app_nil_r. reflexivity.
  - simpl in Hlen. cbn [tokenize_loop]. char_case c.
    + rewrite lexable_cons_sep.
      * apply IH. lia.
      * rewrite isAdmissible_classes, Hw. reflexivity.
      * apply isWhiteSpace_excl, Hw.
    + destruct (scanNumber_digit c r Hd) as (run & rest & Hs & Hrun & Hrest & Hscan).
      rewrite Hscan.
      assert (Hlex : lexable (c :: r) = lexable rest).
      { destruct (isDigit_excl c Hd) as (_ & Hdot & Hnum).
        unfold lexable at 1. simpl.
        rewrite (isDigitOrDot_admissible c Hnum), Hdot, Hnum. simpl.
        subst r. apply numeric_run_lexable; assumption. }
      rewrite Hlex.
      assert (Hl : List.length rest < fuel).
      { subst r. rewrite length_app in Hlen. lia. }
      specialize (IH rest (acc ++ [TNumber (parseFloat (c :: run))]) Hl).
      destruct (lexable rest); [|exact IH].
      destruct IH as [l IH]. exists (TNumber (parseFloat (c :: run)) :: l).
      rewrite IH, <- app_assoc. reflexivity.
    + rewrite lexable_cons_sep.
      * specialize (IH r (acc ++ [TOp c])). destruct (lexable r).
        -- destruct IH as [l IH]; [lia|]. exists (TOp c :: l).
           rewrite IH, <- app_assoc. reflexivity.
        -- apply IH. lia.
      * rewrite isAdmissible_classes, Ho, orb_true_r. reflexivity.
      * apply isOperator_excl, Ho.
    + rewrite lexable_cons_sep.
      * specialize (IH r (acc ++ [TParen c])). destruct (lexable r).
        -- destruct IH as [l IH]; [lia|]. exists (TParen c :: l).
           rewrite IH, <- app_assoc. reflexivity.
        -- apply IH. lia.
      * rewrite isAdmissible_classes, Hp, orb_true_r. reflexivity.
      * apply isParen_excl, Hp.
    + rewrite lexable_cons_bad by assumption. reflexivity.
Qed.

Lemma tokenize_lexable (s : jsstring) :
  if lexable s
  then exists l, tokenize s = Normal l
  else tokenize s = Throw "Invalid character".
Proof.
  unfold tokenize.
  pose proof (tokenize_loop_lexable (S (List.length s)) s [] (Nat.lt_succ_diag_r _)) as H.
  destruct (lexable s); exact H.
Qed.

(** The tokenizer is total. *)
Lemma tokenize_total (s : jsstring) : tokenize s <> OutOfFuel.
Proof.
  pose proof (tokenize_lexable s) as H.
  destruct (lexable s); [destruct H as [l H]|]; rewrite H; discriminate.
Qed.

Lemma noStrayDot_false (p : bool) (s : jsstring) :
  noStrayDot p s = false <->
  (p = false /\ exists post, s = c_dot :: post)
  \/ (exists pre c post,
        s = pre ++ c :: c_dot :: post /\ isDigitOrDot c = false).
Proof.
  revert p. induction s as [|a s IH]; intros p.
  - simpl. split; [discriminate|].
    intros [[_ [post H]]|(pre & c & post & H & _)]; [discriminate|].
    destruct pre; discriminate.
  - simpl. rewrite andb_false_iff, IH. split.
    + intros [H|[[Ha [post Hs]]|(pre & c & post & Hs & Hc)]].
      * apply orb_false_iff in H. destruct H as [H ->].
        apply negb_false_iff, eqc_eq in H. subst a. left. eauto.
      * right. exists [], a, post. subst s. auto.
      * right. exists (a :: pre), c, post. subst s. auto.
    + intros [[-> [post Hs]]|(pre & c & post & Hs & Hc)].
      * injection Hs as -> _. left. reflexivity.
      * destruct pre as [|b pre]; simpl in Hs; injection Hs as -> ->.
        -- right. left. split; [exact Hc|eauto].
        -- right. right. exists pre, c, post. auto.
Qed.

Lemma lexable_false (s : jsstring) :
  lexable s = false <->
  (exists c, In c s /\ isAdmissible c = false) \/ StrayDot s.
Proof.
  unfold lexable, StrayDot. rewrite andb_false_iff, noStrayDot_false.
  split.
  - intros [H|[[_ H]|H]]; auto.
    left. destruct (existsb (fun c => negb (isAdmissible c)) s) eqn:He.
    + apply existsb_exists in He. destruct He as (c & Hin & Hc).
      exists c. split; [exact Hin|]. apply negb_true_iff, Hc.
    + exfalso. assert (forallb isAdmissible s = true); [|congruence].
      apply forallb_forall. intros c Hin.
      destruct (isAdmissible c) eqn:Hc; [reflexivity|].
      assert (existsb (fun c => negb (isAdmissible c)) s = true); [|congruence].
      apply existsb_exists. exists c. rewrite Hc. auto.
  - intros [(c & Hin & Hc)|[H|H]]; auto.
    left. destruct (forallb isAdmissible s) eqn:Hf; [|reflexivity].
    rewrite forallb_forall in Hf. rewrite (Hf c Hin) in Hc. discriminate.
Qed.

(* ===================================================================== *)
(** ** Tokenizing a concatenation *)
(* ===================================================================== *)

Lemma lastNotNumeric_app (x y : jsstring) :
  lastNotNumeric (x ++ y) -> lastNotNumeric y.
Proof.
  unfold lastNotNumeric. rewrite rev_app_distr.
  destruct (rev y); simpl; auto.
Qed.

Lemma lastNotNumeric_run (s : jsstring) :
  forallb isDigitOrDot s = true -> s <> [] -> ~ lastNotNumeric s.
Proof.
  intros Hs Hne Hl. unfold lastNotNumeric in Hl.
  destruct (rev s) as [|x t] eqn:Hr.
  - apply Hne. rewrite <- (rev_involutive s), Hr. reflexivity.
  - simpl in Hl. rewrite forallb_forall in Hs.
    rewrite Hs in Hl; [discriminate|].
    apply in_rev. rewrite Hr. left. reflexivity.
Qed.

Lemma headNotNumeric_app (x y : jsstring) :
  headNotNumeric x -> (x = [] -> headNotNumeric y) -> headNotNumeric (x ++ y).
Proof. destruct x; simpl; auto. Qed.

Lemma tokenize_loop_app (fuel : nat) (a b : jsstring) (acc : list Token) :
  List.length (a ++ b) < fuel ->
  headNotNumeric b \/ lastNotNumeric a ->
  tokenize_loop fuel (a ++ b) acc
  = match tokenize_loop fuel a acc with
    | Normal t => tokenize_loop fuel b t
    | Throw msg => Throw msg
    | OutOfFuel => OutOfFuel
    end.
Proof.
  revert a acc. induction fuel as [|fuel IH]; intros a acc Hlen Hb; [lia|].
  destruct a as [|c r]; [reflexivity|].
  simpl in Hlen. rewrite length_app in Hlen.
  assert (Hfuel : forall X : completion (list Token),
             match X with
             | Normal t => tokenize_loop fuel b t
             | Throw msg => Throw msg
             | OutOfFuel => OutOfFuel
             end
             = match X with
               | Normal t => tokenize_loop (S fuel) b t
               | Throw msg => Throw msg
               | OutOfFuel => OutOfFuel
               end).
  { intros [t| |]; try reflexivity. apply tokenize_loop_fuel; lia. }
  assert (Hr : headNotNumeric b \/ lastNotNumeric r).
  { destruct Hb as [Hb|Hb]; [left; exact Hb|right].
    apply (lastNotNumeric_app [c] r Hb). }
  rewrite <- app_comm_cons. cbn [tokenize_loop].
  char_case c; try reflexivity;
    try (rewrite IH by (rewrite ?length_app; lia || assumption);
         apply Hfuel).
  destruct (scanNumber_digit c r Hd) as (run & rest & Hs & Hrun & Hrest & Hscan).
  rewrite Hscan.
  assert (Hhead : headNotNumeric (rest ++ b)).
  { apply headNotNumeric_app; [exact Hrest|]. intros ->.
    destruct Hb as [Hb|Hb]; [exact Hb|]. exfalso.
    rewrite app_nil_r in Hs. subst r.
    apply (lastNotNumeric_run (c :: run)); [|discriminate|exact Hb].
    simpl. rewrite Hrun.
    destruct (isDigit_excl c Hd) as (_ & _ & ->). reflexivity. }
  assert (Hscan' : scanNumber [] (c :: r ++ b) = (c :: run, rest ++ b)).
  { destruct (isDigit_excl c Hd) as (_ & _ & Hnum).
    simpl. rewrite Hnum. subst r. rewrite <- app_assoc.
    apply (scanNumber_run run (rest ++ b) [c]); assumption. }
  rewrite Hscan'. subst r. rewrite length_app in Hlen.
  rewrite IH.
  - apply Hfuel.
  - rewrite length_app. lia.
  - destruct Hr as [Hr|Hr]; [left; exact Hr|right].
    apply (lastNotNumeric_app run rest Hr).
Qed.

(** Where no number runs across the seam, a concatenation is tokenized
    piece by piece. *)
Lemma tokenize_app (a b : jsstring) :
  headNotNumeric b \/ lastNotNumeric a ->
  tokenize (a ++ b) = tokenizeThen (tokenize a) (tokenize b).
Proof.
  intros Hb. unfold tokenize.
  rewrite tokenize_loop_app by (auto; lia).
  rewrite (tokenize_loop_fuel (S (List.length (a ++ b))) (S (List.length a)))
    by (rewrite ?length_app; lia).
  destruct (tokenize_loop (S (List.length a)) a []) as [t| |]; try reflexivity.
  unfold tokenizeThen. rewrite tokenize_loop_acc.
  rewrite (tokenize_loop_fuel (S (List.length (a ++ b))) (S (List.length b)))
    by (rewrite ?length_app; lia).
  reflexivity.
Qed.

(** A run of digits and points from a digit on is one number token. *)
Lemma tokenize_run (run : jsstring) (c : char) :
  isDigit c = true -> forallb isDigitOrDot run = true ->
  tokenize (c :: run) = Normal [TNumber (parseFloat (c :: run))].
Proof.
  intros Hc Hrun. unfold tokenize. cbn [tokenize_loop List.length].
  destruct (isDigit_excl c Hc) as (Hw & _ & Hnum).
  rewrite Hw, Hc. simpl scanNumber. rewrite Hnum.
  rewrite <- (app_nil_r run) at 1.
  rewrite (scanNumber_run run [] [c] Hrun I).
  destruct run; reflexivity.
Qed.

(* ===================================================================== *)
(** ** The parser returns or throws *)
(* ===================================================================== *)

Section ParserTotal.

Variable tokens : list Token.

Local Abbreviation L := (List.length tokens).

Lemma nth_error_in_range (pos : nat) (t : Token) :
  nth_error tokens pos = Some t -> pos < L.
Proof. intros H. apply nth_error_Some. congruence. Qed.

(** Run the callee [c] under its invariant [IH]; what is left is the case
    where it returned [v] with the cursor at [p]. *)
Ltac call c IH v p H :=
  let R := fresh "R" in
  pose proof IH as H;
  destruct c as [[v p]| |] eqn:R; cbv beta iota;
  [ unfold advances in H
  | exact I
  | exfalso; exact H ].

Lemma parse_fuelInvariant (fuel : nat) : fuelInvariant tokens fuel.
Proof.
  induction fuel as [|fuel IH].
  { unfold fuelInvariant. cbv zeta. repeat split; intros; lia. }
  destruct IH as (IHA & IHAw & IHM & IHMw & IHP & IHU & IHPr).
  unfold fuelInvariant. cbv zeta. repeat split.
  - (* parseAddSub *)
    intros pos Hpos Hf. cbn [parseAddSub]. unfold bind.
    call (parseMulDiv tokens fuel pos) (IHM pos Hpos ltac:(lia)) lf p1 H1.
    call (parseAddSub_while tokens fuel lf p1)
         (IHAw lf p1 ltac:(lia) ltac:(lia)) v p2 H2.
    unfold advances. lia.
  - (* the loop of parseAddSub *)
    intros lf pos Hpos Hf. cbn [parseAddSub_while].
    unfold consumeOp; unfold bind, peek, consume, ret, throw; cbv beta iota.
    destruct (nth_error tokens pos) as [t|] eqn:Ht;
      [|simpl; unfold advances; lia].
    pose proof (nth_error_in_range _ _ Ht) as Hlt.
    destruct (isOp (Some t) c_plus || isOp (Some t) c_minus); cbv beta iota;
      [rewrite Ht; cbv beta iota|unfold advances; lia].
    call (parseMulDiv tokens fuel (S pos))
         (IHM (S pos) ltac:(lia) ltac:(lia)) rt p1 H1.
    match goal with |- advances _ _ _ (parseAddSub_while _ _ ?l _) =>
      call (parseAddSub_while tokens fuel l p1)
           (IHAw l p1 ltac:(lia) ltac:(lia)) v p2 H2 end.
    unfold advances. lia.
  - (* parseMulDiv *)
    intros pos Hpos Hf. cbn [parseMulDiv]. unfold bind.
    call (parsePercentage tokens fuel pos) (IHP pos Hpos ltac:(lia)) lf p1 H1.
    call (parseMulDiv_while tokens fuel lf p1)
         (IHMw lf p1 ltac:(lia) ltac:(lia)) v p2 H2.
    unfold advances. lia.
  - (* the loop of parseMulDiv *)
    intros lf pos Hpos Hf. cbn [parseMulDiv_while].
    unfold consumeOp; unfold bind, peek, consume, ret, throw; cbv beta iota.
    destruct (nth_error tokens pos) as [t|] eqn:Ht;
      [|simpl; unfold advances; lia].
    pose proof (nth_error_in_range _ _ Ht) as Hlt.
    destruct (isOp (Some t) c_star || isOp (Some t) c_slash); cbv beta iota;
      [rewrite Ht; cbv beta iota|unfold advances; lia].
    call (parsePercentage tokens fuel (S pos))
         (IHP (S pos) ltac:(lia) ltac:(lia)) rt p1 H1.
    match goal with |- advances _ _ _ (parseMulDiv_while _ _ ?l _) =>
      call (parseMulDiv_while tokens fuel l p1)
           (IHMw l p1 ltac:(lia) ltac:(lia)) v p2 H2 end.
    unfold advances. lia.
  - (* parsePercentage *)
    intros pos Hpos Hf. cbn [parsePercentage].
    unfold bind, peek, consume, ret; cbv beta iota.
    call (parseUnary tokens fuel pos) (IHU pos Hpos ltac:(lia)) lf p1 H1.
    destruct (nth_error tokens p1) as [t|] eqn:Ht;
      [|simpl; unfold advances; lia].
    apply nth_error_in_range in Ht.
    destruct (isOp (Some t) c_pct); unfold advances; lia.
  - (* parseUnary *)
    intros pos Hpos Hf. cbn [parseUnary].
    unfold consumeOp; unfold bind, peek, consume, ret, throw; cbv beta iota.
    destruct (nth_error tokens pos) as [t|] eqn:Ht.
    + pose proof (nth_error_in_range _ _ Ht) as Hlt.
      destruct (isOp (Some t) c_minus || isOp (Some t) c_plus);
        cbv beta iota.
      * rewrite Ht; cbv beta iota.
        call (parseUnary tokens fuel (S pos))
             (IHU (S pos) ltac:(lia) ltac:(lia)) v p1 H1.
        unfold advances. lia.
      * apply IHPr; lia.
    + simpl. apply IHPr; lia.
  - (* parsePrimary *)
    intros pos Hpos Hf. cbn [parsePrimary].
    unfold bind, peek, consume, ret, throw; cbv beta iota.
    destruct (nth_error tokens pos) as [[value|op|par]|] eqn:Ht;
      try exact I.
    + apply nth_error_in_range in Ht. unfold advances. lia.
    + apply nth_error_in_range in Ht.
      destruct (eqc par c_lparen); [|exact I].
      call (parseAddSub tokens fuel (S pos))
           (IHA (S pos) ltac:(lia) ltac:(lia)) v p1 H1.
      destruct (nth_error tokens p1) as [t|] eqn:Ht1; [|exact I].
      apply nth_error_in_range in Ht1.
      destruct (isParenTok (Some t) c_rparen); [|exact I].
      unfold advances. lia.
Qed.

(** [parseTokens] starts [parseAddSub] with enough fuel. *)
Lemma parseTokens_total : parseTokens tokens <> OutOfFuel.
Proof.
  unfold parseTokens.
  destruct (parse_fuelInvariant (parseFuel tokens)) as (HA & _).
  cbv zeta in HA. specialize (HA 0). unfold parseFuel in *.
  assert (H : advances tokens true 0 (parseAddSub tokens (5 * L + 5) 0)).
  { apply HA; lia. }
  destruct (parseAddSub tokens (5 * L + 5) 0) as [[v p]| |];
    [|discriminate|contradiction].
  destruct (p <? L); discriminate.
Qed.

End ParserTotal.

Lemma parseExpression_total (expr : jsstring) :
  parseExpression expr <> OutOfFuel.
Proof.
  unfold parseExpression. pose proof (tokenize_total expr) as Ht.
  destruct (tokenize expr) as [tokens| |];
    [apply parseTokens_total|discriminate|contradiction].
Qed.

(* ===================================================================== *)
(** ** The guard: claims C1, C2, C3 *)
(* ===================================================================== *)

Lemma guard_rejects_blank_or_long
      (parse : jsstring -> completion float) (expr : jsstring) :
  trim expr = [] \/ 200 < List.length (trim expr) ->
  evaluateMathExpressionSimple_with parse expr = Normal undefined.
Proof.
  intros H. unfold evaluateMathExpressionSimple_with.
  destruct H as [H|H].
  - rewrite H. reflexivity.
  - apply Nat.ltb_lt in H. rewrite H. reflexivity.
Qed.

Lemma guard_rejects_foreign_character
      (parse : jsstring -> completion float) (expr : jsstring) (c : char) :
  In c expr -> isAdmissible c = false ->
  evaluateMathExpressionSimple_with parse expr = Normal undefined.
Proof.
  intros Hin Hc. unfold evaluateMathExpressionSimple_with.
  destruct ((200 <? List.length (trim expr))
            || match trim expr with [] => true | _ :: _ => false end);
    [reflexivity|].
  assert (Hf : forallb isAdmissible (trim expr) = false).
  { destruct (forallb isAdmissible (trim expr)) eqn:Hf; [|reflexivity].
    rewrite forallb_forall in Hf.
    rewrite (Hf c) in Hc; [discriminate|].
    apply In_trim; [exact Hin|]. apply isAdmissible_not_white, Hc. }
  rewrite Hf. reflexivity.
Qed.

(** C1: for every input string [evaluateMathExpressionSimple] returns
    normally, with either [undefined] or a finite number.  Whatever the
    lexer or the parser throws on the trimmed input becomes [undefined], a
    result that is not finite becomes [undefined], and a number is returned
    only when it is the finite value the parser returned: no failure and no
    partial result reaches the caller. *)
Theorem evaluate_returns_finite_or_undefined (expr : jsstring) :
  exists r : result,
    evaluateMathExpressionSimple expr = Normal r
    /\ match r with
       | Some v => isFinite v = true
       | None => True
       end
    /\ match parseExpression (trim expr) with
       | Normal v =>
           if isFinite v then r = Some v \/ r = undefined else r = undefined
       | Throw _ => r = undefined
       | OutOfFuel => False
       end.
Proof.
  unfold evaluateMathExpressionSimple, evaluateMathExpressionSimple_with.
  pose proof (parseExpression_total (trim expr)) as Htot.
  destruct ((200 <? List.length (trim expr))
            || match trim expr with [] => true | _ :: _ => false end).
  - exists undefined. repeat split.
    destruct (parseExpression (trim expr)) as [v| |];
      [destruct (isFinite v); auto|reflexivity|contradiction].
  - destruct (negb (forallb isAdmissible (trim expr))).
    + exists undefined. repeat split.
      destruct (parseExpression (trim expr)) as [v| |];
        [destruct (isFinite v); auto|reflexivity|contradiction].
    + destruct (parseExpression (trim expr)) as [v| |];
        [|exists undefined; repeat split|contradiction].
      destruct (isFinite v) eqn:Hv.
      * exists (Some v). repeat split; auto.
      * exists undefined. repeat split.
Qed.

(** C2: when the trimmed input is empty, or longer than 200 characters,
    [evaluateMathExpressionSimple] returns [undefined]; it does so whatever
    the function called in the [try] block is, so neither the lexer nor the
    parser takes part in the result. *)
Theorem evaluate_blank_or_long_is_undefined (expr : jsstring) :
  trim expr = [] \/ 200 < List.length (trim expr) ->
  evaluateMathExpressionSimple expr = Normal undefined
  /\ forall parse : jsstring -> completion float,
       evaluateMathExpressionSimple_with parse expr = Normal undefined.
Proof.
  intros H. split; [|intros parse];
    apply guard_rejects_blank_or_long; exact H.
Qed.

Lemma evaluate_blank_or_long_is_undefined_witness :
  (evaluateMathExpressionSimple (str "   ") = Normal undefined
   /\ evaluateMathExpressionSimple (repeat 49%N 201) = Normal undefined)
  /\ evaluateMathExpressionSimple_with (fun _ => Normal (ofZ 1)) (repeat 49%N 201)
     = Normal undefined.
Proof.
  split; [split|].
  - apply (evaluate_blank_or_long_is_undefined (str "   ")).
    left. reflexivity.
  - apply (evaluate_blank_or_long_is_undefined (repeat 49%N 201)).
    right. vm_compute. lia.
  - apply (evaluate_blank_or_long_is_undefined (repeat 49%N 201)).
    right. vm_compute. lia.
Defined.

(** C3: an input with a character outside the class of the digits, the
    point, white space, [+ - * / %] and the two parentheses evaluates to
    [undefined]. *)
Theorem evaluate_foreign_character_is_undefined (expr : jsstring) (c : char) :
  In c expr -> isAdmissible c = false ->
  evaluateMathExpressionSimple expr = Normal undefined.
Proof. apply guard_rejects_foreign_character. Qed.

Lemma evaluate_foreign_character_is_undefined_witness :
  evaluateMathExpressionSimple (str "2 + a") = Normal undefined.
Proof.
  apply (evaluate_foreign_character_is_undefined (str "2 + a") 97%N).
  - simpl. do 4 right. left. reflexivity.
  - reflexivity.
Defined.

(* ===================================================================== *)
(** ** The tokenizer: claims C4, C9 *)
(* ===================================================================== *)

(** C4, as the claim states it, fails: the string [.5] has only characters
    of the admissible set, and [tokenize] throws on it. *)
Lemma tokenize_leading_point_throws :
  forallb isAdmissible (str ".5") = true
  /\ tokenize (str ".5") = Throw "Invalid character".
Proof. split; reflexivity. Qed.

(** C4, amended: [tokenize] throws "Invalid character" exactly on the
    inputs that contain a character outside the admissible set or a point
    that continues no number (a point at the start of the input or after a
    character that is neither a digit nor a point); it returns a token
    sequence exactly on the inputs made of admissible characters without
    such a point. *)
Theorem tokenize_throws_exactly (s : jsstring) :
  (tokenize s = Throw "Invalid character"
   <-> (exists c, In c s /\ isAdmissible c = false) \/ StrayDot s)
  /\ ((exists l, tokenize s = Normal l)
      <-> (forall c, In c s -> isAdmissible c = true) /\ ~ StrayDot s).
Proof.
  pose proof (tokenize_lexable s) as H.
  pose proof (lexable_false s) as Hf.
  destruct (lexable s) eqn:Hl.
  - destruct H as [l H].
    assert (Hn : ~ ((exists c, In c s /\ isAdmissible c = false) \/ StrayDot s)).
    { intros Hbad. apply Hf in Hbad. discriminate. }
    split; split.
    + rewrite H. discriminate.
    + intros Hbad. contradiction.
    + intros _. split.
      * intros c Hin. destruct (isAdmissible c) eqn:Hc; [reflexivity|].
        exfalso. apply Hn. left. exists c. auto.
      * intros Hd. apply Hn. right. exact Hd.
    + intros _. exists l. exact H.
  - assert (Hbad : (exists c, In c s /\ isAdmissible c = false) \/ StrayDot s).
    { apply Hf. reflexivity. }
    split; split.
    + intros _. exact Hbad.
    + intros _. exact H.
    + intros [l Hl']. rewrite H in Hl'. discriminate.
    + intros [Hall Hd]. exfalso.
      destruct Hbad as [(c & Hin & Hc)|Hbad]; [|contradiction].
      rewrite (Hall c Hin) in Hc. discriminate.
Qed.

Lemma tokenize_throws_exactly_witness :
  tokenize (str "2+.5") = Throw "Invalid character"
  /\ (forall c, In c (str "1.2.3") -> isAdmissible c = true)
  /\ ~ StrayDot (str "1.2.3").
Proof.
  split.
  - apply (proj1 (tokenize_throws_exactly (str "2+.5"))).
    right. right. exists (str "2"), c_plus, (str "5"). split; reflexivity.
  - apply (proj2 (tokenize_throws_exactly (str "1.2.3"))).
    exists [TNumber (parseFloat (str "1.2.3"))]. reflexivity.
Defined.

(** C9: a maximal run of digits and points that starts with a digit is
    read whole and gives exactly one number token, however many points it
    has: alone it is tokenized to that one token, and between a text [pre]
    that does not end in a digit or point and a text [post] that does not
    start with one, the tokens are those of [pre], the one number token,
    and those of [post]. *)
Theorem tokenize_numeric_run
      (pre : jsstring) (c : char) (run post : jsstring) :
  isDigit c = true ->
  forallb isDigitOrDot run = true ->
  lastNotNumeric pre ->
  headNotNumeric post ->
  tokenize (c :: run) = Normal [TNumber (parseFloat (c :: run))]
  /\ tokenize (pre ++ (c :: run) ++ post)
     = tokenizeThen (tokenize pre)
         (prepend [TNumber (parseFloat (c :: run))] (tokenize post)).
Proof.
  intros Hc Hrun Hpre Hpost.
  pose proof (tokenize_run run c Hc Hrun) as Hone.
  split; [exact Hone|].
  rewrite tokenize_app by (right; exact Hpre).
  rewrite tokenize_app by (left; exact Hpost).
  rewrite Hone. reflexivity.
Qed.

Lemma tokenize_numeric_run_witness :
  tokenize (str "1.2.3") = Normal [TNumber (parseFloat (str "1.2.3"))]
  /\ tokenize (str "2+1.2.3*4")
     = Normal [TNumber (ofZ 2); TOp c_plus;
               TNumber (parseFloat (str "1.2.3")); TOp c_star;
               TNumber (ofZ 4)].
Proof.
  destruct (tokenize_numeric_run (str "2+") 49%N (str ".2.3") (str "*4"))
    as [H1 H2]; try reflexivity.
  split; [exact H1|].
  exact (eq_trans H2 eq_refl).
Defined.

(* ===================================================================== *)
(** ** The parser: claims C5, C6, C7, C8, C10 *)
(* ===================================================================== *)

(** Run the parser on tokens whose numbers are variables: everything is
    computed but the arithmetic. *)
Ltac symbolic_run :=
  cbv -[add sub mul div neg ofZ]; reflexivity.

Lemma tokenize_skips_white (c : char) (a b : jsstring) :
  isWhiteSpace c = true ->
  tokenize (a ++ c :: b) = tokenizeThen (tokenize a) (tokenize b).
Proof.
  intros Hc. pose proof (isWhiteSpace_excl c Hc) as Hn.
  rewrite tokenize_app by (left; exact Hn).
  change (c :: b) with ([c] ++ b).
  rewrite tokenize_app by (right; exact Hn).
  unfold tokenize at 2. simpl. rewrite Hc.
  destruct (tokenize b); reflexivity.
Qed.

(** C5: multiplication and division bind tighter than addition and
    subtraction, chains of one level are evaluated from left to right,
    parentheses override the precedence, and white space between tokens is
    ignored; ["2 + 3 * 4"] is 14, ["(2 + 3) * 4"] is 20 and
    ["  10   *   (  5 + 3 )  "] is 80. *)
Theorem precedence_and_white_space :
  evaluateMathExpressionSimple (str "2 + 3 * 4") = Normal (Some (ofZ 14))
  /\ evaluateMathExpressionSimple (str "(2 + 3) * 4") = Normal (Some (ofZ 20))
  /\ evaluateMathExpressionSimple (str "  10   *   (  5 + 3 )  ")
     = Normal (Some (ofZ 80))
  /\ (forall a b c : float,
        parseTokens [TNumber a; TOp c_plus; TNumber b; TOp c_star; TNumber c]
        = Normal (add a (mul b c))
        /\ parseTokens [TNumber a; TOp c_minus; TNumber b; TOp c_slash; TNumber c]
           = Normal (sub a (div b c))
        /\ parseTokens [TNumber a; TOp c_star; TNumber b; TOp c_plus; TNumber c]
           = Normal (add (mul a b) c)
        /\ parseTokens [TNumber a; TOp c_minus; TNumber b; TOp c_plus; TNumber c]
           = Normal (add (sub a b) c)
        /\ parseTokens [TNumber a; TOp c_slash; TNumber b; TOp c_star; TNumber c]
           = Normal (mul (div a b) c)
        /\ parseTokens [TParen c_lparen; TNumber a; TOp c_plus; TNumber b;
                        TParen c_rparen; TOp c_star; TNumber c]
           = Normal (mul (add a b) c))
  /\ (forall (w : char) (s t : jsstring),
        isWhiteSpace w = true ->
        tokenize (s ++ w :: t) = tokenizeThen (tokenize s) (tokenize t)).
Proof.
  split; [vm_compute; reflexivity|].
  split; [vm_compute; reflexivity|].
  split; [vm_compute; reflexivity|].
  split.
  - intros a b c. repeat split; symbolic_run.
  - intros w s t Hw. apply tokenize_skips_white, Hw.
Qed.

Lemma precedence_and_white_space_witness :
  tokenize (str "10 *" ++ 32%N :: str "(5") = Normal
    [TNumber (ofZ 10); TOp c_star; TParen c_lparen; TNumber (ofZ 5)].
Proof.
  pose proof (proj2 (proj2 (proj2 (proj2 precedence_and_white_space)))
                32%N (str "10 *") (str "(5")) as H.
  exact (eq_trans (H eq_refl) eq_refl).
Defined.

(** C6: [%] is a postfix operator that divides the value of the preceding
    unary expression by 100 and binds tighter than [*] and [/]; unary signs
    chain; ["50%"] is 0.5, ["100 * 50%"] is 50, ["--5"] is 5 and ["-50%"]
    is -0.5.  The four values are written out as binary64 numbers
    (0.5 is 2^52 * 2^-53, with the sign bit set for -0.5; 50 is
    7036874417766400 * 2^-47; 5 is 5629499534213120 * 2^-50), and the
    sign laws are stated with the negation [SFopp] of [SpecFloat]. *)
Theorem percentage_and_unary_signs :
  evaluateMathExpressionSimple (str "50%")
  = Normal (Some (S754_finite false 4503599627370496 (-53)))
  /\ evaluateMathExpressionSimple (str "100 * 50%")
     = Normal (Some (S754_finite false 7036874417766400 (-47)))
  /\ evaluateMathExpressionSimple (str "--5")
     = Normal (Some (S754_finite false 5629499534213120 (-50)))
  /\ evaluateMathExpressionSimple (str "-50%")
     = Normal (Some (S754_finite true 4503599627370496 (-53)))
  /\ evaluateMathExpressionSimple (str "-5")
     = Normal (Some (S754_finite true 5629499534213120 (-50)))
  /\ (forall a b : float,
        parseTokens [TNumber a; TOp c_pct] = Normal (div a (ofZ 100))
        /\ parseTokens [TNumber a; TOp c_star; TNumber b; TOp c_pct]
           = Normal (mul a (div b (ofZ 100)))
        /\ parseTokens [TNumber a; TOp c_pct; TOp c_slash; TNumber b]
           = Normal (div (div a (ofZ 100)) b)
        /\ parseTokens [TOp c_minus; TNumber a; TOp c_pct]
           = Normal (div (SFopp a) (ofZ 100))
        /\ parseTokens [TOp c_minus; TNumber a] = Normal (SFopp a)
        /\ parseTokens [TOp c_minus; TOp c_minus; TNumber a]
           = Normal (SFopp (SFopp a))
        /\ parseTokens [TOp c_plus; TOp c_minus; TOp c_plus; TNumber a]
           = Normal (SFopp a)).
Proof.
  do 5 (split; [vm_compute; reflexivity|]).
  intros a b. repeat split; symbolic_run.
Qed.

(** C7: a division by zero does not make the parser throw:
    [parseExpression] returns a value that is not finite (an infinity, or
    NaN for a zero dividend), and the guard turns it into [undefined];
    ["5 / 0"] evaluates to [undefined]. *)
Theorem division_by_zero_is_undefined :
  parseExpression (str "5 / 0") = Normal (S754_infinity false)
  /\ evaluateMathExpressionSimple (str "5 / 0") = Normal undefined
  /\ parseExpression (str "0 / 0") = Normal NaN
  /\ evaluateMathExpressionSimple (str "0 / 0") = Normal undefined
  /\ (forall (a : float) (s : bool),
        parseTokens [TNumber a; TOp c_slash; TNumber (S754_zero s)]
        = Normal (div a (S754_zero s))
        /\ isFinite (div a (S754_zero s)) = false).
Proof.
  do 4 (split; [vm_compute; reflexivity|]).
  intros a s. split; [symbolic_run|].
  destruct a as [sa|sa| |sa m e], s; reflexivity.
Qed.

(** C8: a token left over when the top-level [parseAddSub] has returned
    makes [parseExpression] throw, and so does a [(] whose expression is not
    followed by [)]; ["(2 + 3"] and ["2 + 3)"] evaluate to [undefined]. *)
Theorem unbalanced_parentheses_are_undefined :
  (parseExpression (str "(2 + 3") = Throw "Missing closing parenthesis"
   /\ evaluateMathExpressionSimple (str "(2 + 3") = Normal undefined)
  /\ (parseExpression (str "2 + 3)") = Throw "Unexpected token after expression"
      /\ evaluateMathExpressionSimple (str "2 + 3)") = Normal undefined)
  /\ (forall (tokens : list Token) (v : float) (pos : nat),
        parseAddSub tokens (parseFuel tokens) 0 = Normal (v, pos) ->
        pos < List.length tokens ->
        parseTokens tokens = Throw "Unexpected token after expression")
  /\ (forall (tokens : list Token) (fuel pos : nat) (v : float) (pos' : nat),
        nth_error tokens pos = Some (TParen c_lparen) ->
        parseAddSub tokens fuel (S pos) = Normal (v, pos') ->
        isParenTok (nth_error tokens pos') c_rparen = false ->
        parsePrimary tokens (S fuel) pos = Throw "Missing closing parenthesis").
Proof.
  split; [split; vm_compute; reflexivity|].
  split; [split; vm_compute; reflexivity|].
  split.
  - intros tokens v pos Hp Hlt. unfold parseTokens. rewrite Hp.
    apply Nat.ltb_lt in Hlt. rewrite Hlt. reflexivity.
  - intros tokens fuel pos v pos' Ht Hp Hc. cbn [parsePrimary].
    unfold bind, peek, consume, ret, throw; cbv beta iota.
    rewrite Ht; cbv beta iota.
    change (eqc c_lparen c_lparen) with true; cbv beta iota.
    rewrite Hp; cbv beta iota. rewrite Hc. reflexivity.
Qed.

Lemma unbalanced_parentheses_are_undefined_witness :
  parseTokens [TNumber (ofZ 2); TParen c_rparen]
  = Throw "Unexpected token after expression"
  /\ parsePrimary [TParen c_lparen; TNumber (ofZ 2)] 8 0
     = Throw "Missing closing parenthesis".
Proof.
  destruct unbalanced_parentheses_are_undefined as (_ & _ & Hrest & Hopen).
  split.
  - apply (Hrest [TNumber (ofZ 2); TParen c_rparen] (ofZ 2) 1).
    + reflexivity.
    + simpl. lia.
  - apply (Hopen [TParen c_lparen; TNumber (ofZ 2)] 7 0 (ofZ 2) 2);
      reflexivity.
Defined.

(** C10: [%] is never an infix remainder operator, and at most one [%] may
    follow a value: [parsePercentage] reads the value of [parseUnary] and
    then at most one [%], so for a number, [%] and a number, and for a
    number and two [%], a token is left over and the evaluation is
    [undefined]; so it is for ["5 % 3"] and ["50%%"]. *)
Theorem percent_is_postfix_only :
  (parseExpression (str "5 % 3") = Throw "Unexpected token after expression"
   /\ evaluateMathExpressionSimple (str "5 % 3") = Normal undefined)
  /\ (parseExpression (str "50%%") = Throw "Unexpected token after expression"
      /\ evaluateMathExpressionSimple (str "50%%") = Normal undefined)
  /\ (forall a b : float,
        parseTokens [TNumber a; TOp c_pct; TNumber b]
        = Throw "Unexpected token after expression"
        /\ parseTokens [TNumber a; TOp c_pct; TOp c_pct]
           = Throw "Unexpected token after expression")
  /\ (forall (tokens : list Token) (fuel pos : nat),
        parsePercentage tokens (S fuel) pos
        = match parseUnary tokens fuel pos with
          | Normal (value, pos') =>
              if isOp (nth_error tokens pos') c_pct
              then Normal (div value (ofZ 100), S pos')
              else Normal (value, pos')
          | Throw msg => Throw msg
          | OutOfFuel => OutOfFuel
          end).
Proof.
  split; [split; vm_compute; reflexivity|].
  split; [split; vm_compute; reflexivity|].
  split; [intros a b; split; symbolic_run|].
  intros tokens fuel pos. cbn [parsePercentage].
  unfold bind, peek, consume, ret; cbv beta iota.
  destruct (parseUnary tokens fuel pos) as [[value pos']| |]; try reflexivity.
  destruct (isOp (nth_error tokens pos') c_pct); reflexivity.
Qed.

(* ===================================================================== *)
(** ** The tokenizer, one character at a time *)
(* ===================================================================== *)

Lemma prepend_nil (c : completion (list Token)) : prepend [] c = c.
Proof. destruct c; reflexivity. Qed.

Lemma tokenize_nil : tokenize [] = Normal [].
Proof. reflexivity. Qed.

Lemma tokenize_loop_step (f : nat) (c : char) (r : jsstring) (acc : list Token) :
  tokenize_loop (S f) (c :: r) acc
  = if isWhiteSpace c then tokenize_loop f r acc
    else if isDigit c then
      let '(num, s') := scanNumber [] (c :: r) in
      tokenize_loop f s' (acc ++ [TNumber (parseFloat num)])
    else if isOperator c then tokenize_loop f r (acc ++ [TOp c])
    else if isParen c then tokenize_loop f r (acc ++ [TParen c])
    else Throw "Invalid character".
Proof. reflexivity. Qed.

(** One turn of the loop of [tokenize], seen on its result. *)
Lemma tokenize_cons (c : char) (r : jsstring) :
  tokenize (c :: r)
  = if isWhiteSpace c then tokenize r
    else if isDigit c then
      let '(num, s') := scanNumber [] (c :: r) in
      prepend [TNumber (parseFloat num)] (tokenize s')
    else if isOperator c then prepend [TOp c] (tokenize r)
    else if isParen c then prepend [TParen c] (tokenize r)
    else Throw "Invalid character".
Proof.
  unfold tokenize. cbn [List.length]. rewrite tokenize_loop_step.
  char_case c; try reflexivity.
  - destruct (scanNumber_digit c r Hd) as (run & rest & Hs & _ & _ & Hscan).
    rewrite Hscan. rewrite tokenize_loop_acc. f_equal.
    apply tokenize_loop_fuel; subst r; rewrite ?length_app; simpl; lia.
  - rewrite tokenize_loop_acc. reflexivity.
  - rewrite tokenize_loop_acc. reflexivity.
Qed.

(** Induction along the run of [tokenize]: the five branches of its loop,
    with the number branch taking a whole maximal run. *)
Lemma tokenize_induction (P : jsstring -> completion (list Token) -> Prop) :
  P [] (Normal []) ->
  (forall c r, isWhiteSpace c = true ->
     P r (tokenize r) -> P (c :: r) (tokenize r)) ->
  (forall c run rest,
     isDigit c = true -> forallb isDigitOrDot run = true ->
     headNotNumeric rest ->
     P rest (tokenize rest) ->
     P (c :: run ++ rest)
       (prepend [TNumber (parseFloat (c :: run))] (tokenize rest))) ->
  (forall c r, isOperator c = true ->
     P r (tokenize r) -> P (c :: r) (prepend [TOp c] (tokenize r))) ->
  (forall c r, isParen c = true ->
     P r (tokenize r) -> P (c :: r) (prepend [TParen c] (tokenize r))) ->
  (forall c r,
     isWhiteSpace c = false -> isDigit c = false ->
     isOperator c = false -> isParen c = false ->
     P (c :: r) (Throw "Invalid character")) ->
  forall s, P s (tokenize s).
Proof.
  intros Hnil Hws Hnum Hop Hpar Hbad s.
  remember (List.length s) as n eqn:Hn.
  revert s Hn. induction n as [n IH] using lt_wf_ind. intros s Hn.
  destruct s as [|c r]; [exact Hnil|].
  simpl in Hn. rewrite tokenize_cons. char_case c.
  - apply Hws; [exact Hw|]. apply (IH (List.length r)); [lia|reflexivity].
  - destruct (scanNumber_digit c r Hd) as (run & rest & Hs & Hrun & Hrest & Hscan).
    rewrite Hscan. subst r. apply Hnum; try assumption.
    apply (IH (List.length rest)); [|reflexivity].
    rewrite length_app in Hn. lia.
  - apply Hop; [exact Ho|]. apply (IH (List.length r)); [lia|reflexivity].
  - apply Hpar; [exact Hp|]. apply (IH (List.length r)); [lia|reflexivity].
  - apply Hbad; assumption.
Qed.

(* ===================================================================== *)
(** ** What the tokenizer returns *)
(* ===================================================================== *)

Lemma prepend_Normal_inv (a l : list Token) (c : completion (list Token)) :
  prepend a c = Normal l -> exists t, c = Normal t /\ l = a ++ t.
Proof.
  destruct c as [t| |]; simpl; intros H; try discriminate.
  injection H as <-. exists t. auto.
Qed.

(** X1: the tokenizer returns at most one token per character, and in its
    tokens an operator is one of [+ - * / %] and a parenthesis is [(] or
    [)]. *)
Theorem tokenize_tokens_bounded_wellformed (s : jsstring) (l : list Token) :
  tokenize s = Normal l ->
  List.length l <= List.length s /\ Forall wellFormedToken l.
Proof.
  revert l. pattern s, (tokenize s). apply tokenize_induction; clear s.
  - intros l H. injection H as <-. split; [simpl; lia|constructor].
  - intros c r _ IH l H. destruct (IH l H) as [Hlen Hwf].
    split; [simpl; lia|exact Hwf].
  - intros c run rest _ _ _ IH l H.
    apply prepend_Normal_inv in H. destruct H as (t & Ht & ->).
    destruct (IH t Ht) as [Hlen Hwf].
    split; [simpl; rewrite length_app; lia|].
    constructor; [exact I|exact Hwf].
  - intros c r Hc IH l H.
    apply prepend_Normal_inv in H. destruct H as (t & Ht & ->).
    destruct (IH t Ht) as [Hlen Hwf].
    split; [simpl; lia|]. constructor; [exact Hc|exact Hwf].
  - intros c r Hc IH l H.
    apply prepend_Normal_inv in H. destruct H as (t & Ht & ->).
    destruct (IH t Ht) as [Hlen Hwf].
    split; [simpl; lia|]. constructor; [exact Hc|exact Hwf].
  - intros c r _ _ _ _ l H. discriminate.
Qed.

Lemma tokenize_tokens_bounded_wellformed_witness :
  List.length [TNumber (ofZ 2); TOp c_plus; TParen c_lparen; TNumber (ofZ 3);
               TParen c_rparen] <= List.length (str "2 + (3)")
  /\ Forall wellFormedToken
       [TNumber (ofZ 2); TOp c_plus; TParen c_lparen; TNumber (ofZ 3);
        TParen c_rparen].
Proof.
  apply (tokenize_tokens_bounded_wellformed (str "2 + (3)")). reflexivity.
Defined.

(* ===================================================================== *)
(** ** White space around the input *)
(* ===================================================================== *)

Lemma trimStart_white (l s : jsstring) :
  forallb isWhiteSpace l = true -> trimStart (l ++ s) = trimStart s.
Proof.
  induction l as [|c l IH]; simpl; intros H; [reflexivity|].
  apply andb_true_iff in H. destruct H as [-> H]. auto.
Qed.

Lemma trimStart_all_white (l : jsstring) :
  forallb isWhiteSpace l = true -> trimStart l = [].
Proof.
  intros H. rewrite <- (app_nil_r l). rewrite trimStart_white by exact H.
  reflexivity.
Qed.

Lemma trimStart_decompose (s : jsstring) :
  exists l, s = l ++ trimStart s /\ forallb isWhiteSpace l = true.
Proof.
  induction s as [|c s (l & Hs & Hl)]; [exists []; auto|].
  simpl. destruct (isWhiteSpace c) eqn:Hc.
  - exists (c :: l). simpl. rewrite Hc, Hl, <- Hs. auto.
  - exists []. auto.
Qed.

Lemma trimStart_app (s r : jsstring) :
  trimStart s <> [] -> trimStart (s ++ r) = trimStart s ++ r.
Proof.
  induction s as [|c s IH]; simpl; intros H; [contradiction|].
  destruct (isWhiteSpace c); [auto|reflexivity].
Qed.

Lemma forallb_rev (f : char -> bool) (l : jsstring) :
  forallb f (rev l) = forallb f l.
Proof.
  induction l as [|c l IH]; [reflexivity|].
  simpl. rewrite forallb_app, IH. simpl. rewrite andb_true_r, andb_comm.
  reflexivity.
Qed.

Lemma trimEnd_white (s r : jsstring) :
  forallb isWhiteSpace r = true -> trimEnd (s ++ r) = trimEnd s.
Proof.
  intros H. unfold trimEnd. rewrite rev_app_distr, trimStart_white;
    [reflexivity|]. rewrite forallb_rev. exact H.
Qed.

Lemma trimEnd_decompose (s : jsstring) :
  exists r, s = trimEnd s ++ r /\ forallb isWhiteSpace r = true.
Proof.
  destruct (trimStart_decompose (rev s)) as (l & Hs & Hl).
  exists (rev l). unfold trimEnd. split.
  - rewrite <- rev_app_distr, <- Hs, rev_involutive. reflexivity.
  - rewrite forallb_rev. exact Hl.
Qed.

(** [trim] takes white space off both ends and nothing else. *)
Lemma trim_decompose (s : jsstring) :
  exists l r,
    s = l ++ trim s ++ r
    /\ forallb isWhiteSpace l = true /\ forallb isWhiteSpace r = true.
Proof.
  destruct (trimStart_decompose s) as (l & Hs & Hl).
  destruct (trimEnd_decompose (trimStart s)) as (r & Ht & Hr).
  exists l, r. unfold trim. rewrite <- Ht. auto.
Qed.

Lemma trim_white (l s r : jsstring) :
  forallb isWhiteSpace l = true -> forallb isWhiteSpace r = true ->
  trim (l ++ s ++ r) = trim s.
Proof.
  intros Hl Hr. unfold trim. rewrite trimStart_white by exact Hl.
  destruct (trimStart s) as [|c t] eqn:Hs.
  - destruct (trimStart_decompose s) as (l' & Hs' & Hl').
    rewrite Hs, app_nil_r in Hs'. subst l'.
    rewrite trimStart_all_white; [reflexivity|].
    rewrite forallb_app, Hl', Hr. reflexivity.
  - rewrite trimStart_app by (rewrite Hs; discriminate).
    rewrite Hs. apply trimEnd_white, Hr.
Qed.

(** X2: white space around the input changes nothing: the result for
    [l ++ s ++ r], with [l] and [r] made of white space, is the result for
    [s]; so it is for an input that was trimmed before. *)
Theorem evaluate_ignores_surrounding_white (l s r : jsstring) :
  forallb isWhiteSpace l = true -> forallb isWhiteSpace r = true ->
  evaluateMathExpressionSimple (l ++ s ++ r) = evaluateMathExpressionSimple s
  /\ evaluateMathExpressionSimple (trim s) = evaluateMathExpressionSimple s.
Proof.
  intros Hl Hr.
  assert (Hgen : forall a b, trim a = trim b ->
            evaluateMathExpressionSimple a = evaluateMathExpressionSimple b).
  { intros a b H.
    unfold evaluateMathExpressionSimple, evaluateMathExpressionSimple_with.
    rewrite H. reflexivity. }
  split; apply Hgen.
  - apply trim_white; assumption.
  - destruct (trim_decompose s) as (l' & r' & Hs & Hl' & Hr').
    rewrite Hs at 2. symmetry. apply trim_white; assumption.
Qed.

Lemma evaluate_ignores_surrounding_white_witness :
  evaluateMathExpressionSimple (str "  " ++ str "2 + 3" ++ [10%N; 160%N])
  = Normal (Some (ofZ 5)).
Proof.
  rewrite (proj1 (evaluate_ignores_surrounding_white
                    (str "  ") (str "2 + 3") [10%N; 160%N]
                    eq_refl eq_refl)).
  vm_compute. reflexivity.
Defined.

Lemma tokenize_leading_white (l s : jsstring) :
  forallb isWhiteSpace l = true -> tokenize (l ++ s) = tokenize s.
Proof.
  induction l as [|c l IH]; simpl; intros H; [reflexivity|].
  apply andb_true_iff in H. destruct H as [Hc H].
  rewrite tokenize_cons, Hc. auto.
Qed.

Lemma tokenize_trailing_white (s r : jsstring) :
  forallb isWhiteSpace r = true -> tokenize (s ++ r) = tokenize s.
Proof.
  intros H. rewrite tokenize_app.
  - rewrite <- (app_nil_r r), tokenize_leading_white by exact H.
    rewrite tokenize_nil. destruct (tokenize s); simpl;
      rewrite ?app_nil_r; reflexivity.
  - left. destruct r as [|c r]; simpl; [exact I|].
    simpl in H. apply andb_true_iff in H. destruct H as [Hc _].
    apply isWhiteSpace_excl, Hc.
Qed.

(** The parser sees the same tokens with and without the trimming. *)
Lemma parseExpression_trim (s : jsstring) :
  parseExpression (trim s) = parseExpression s.
Proof.
  destruct (trim_decompose s) as (l & r & Hs & Hl & Hr).
  unfold parseExpression. rewrite Hs at 2.
  rewrite tokenize_leading_white, tokenize_trailing_white by assumption.
  reflexivity.
Qed.

(** X3: a point that does not continue a number makes the whole input
    invalid: when the trimmed input starts with a point, or has a point
    after a character that is neither a digit nor a point, the result is
    [undefined]. *)
Theorem evaluate_stray_point_is_undefined (expr : jsstring) :
  StrayDot (trim expr) ->
  evaluateMathExpressionSimple expr = Normal undefined.
Proof.
  intros Hd.
  assert (Ht : tokenize (trim expr) = Throw "Invalid character").
  { pose proof (tokenize_lexable (trim expr)) as H.
    assert (Hl : lexable (trim expr) = false).
    { apply lexable_false. right. exact Hd. }
    rewrite Hl in H. exact H. }
  unfold evaluateMathExpressionSimple, evaluateMathExpressionSimple_with.
  destruct ((200 <? List.length (trim expr))
            || match trim expr with [] => true | _ :: _ => false end);
    [reflexivity|].
  destruct (negb (forallb isAdmissible (trim expr))); [reflexivity|].
  unfold parseExpression. rewrite Ht. reflexivity.
Qed.

Lemma evaluate_stray_point_is_undefined_witness :
  evaluateMathExpressionSimple (str " 2 * (.5 + 1)") = Normal undefined.
Proof.
  apply (evaluate_stray_point_is_undefined (str " 2 * (.5 + 1)")).
  right. exists (str "2 * "), c_lparen, (str "5 + 1)"). split; reflexivity.
Defined.

Example containsMathOperators_examples :
  containsMathOperators None None (str "-5") = false
  /\ containsMathOperators None None (str "5-3") = true
  /\ containsMathOperators None None (str "+5") = true
  /\ containsMathOperators None None (str "--5") = false
  /\ containsMathOperators (Some (str "$")) None (str "$12*3") = true
  /\ containsMathOperators None (Some (str "%")) (str "12%") = false.
Proof. repeat split; reflexivity. Qed.

(* ===================================================================== *)
(** ** Which values are taken for expressions *)
(* ===================================================================== *)

Lemma isSign_minus : isSign c_minus = true.
Proof. reflexivity. Qed.

Lemma isMathChar_minus : isMathChar c_minus = false.
Proof. reflexivity. Qed.

Lemma not_sign (c : char) :
  isMathChar c = false -> eqc c c_minus = false -> isSign c = false.
Proof.
  unfold isMathChar, isSign. intros Hm Hc. rewrite Hc. simpl.
  repeat (apply orb_false_iff in Hm; destruct Hm as [Hm ?]). assumption.
Qed.

Lemma signAfterOther_step (a b : char) (r : jsstring) :
  signAfterOther (a :: b :: r)
  = (negb (isSign a) && isSign b) || signAfterOther (b :: r).
Proof. reflexivity. Qed.

Lemma signAfterOther_cons (a : char) (r : jsstring) :
  signAfterOther (a :: r) = false -> signAfterOther r = false.
Proof.
  destruct r as [|b r]; [reflexivity|].
  rewrite signAfterOther_step. intros H. apply orb_false_iff in H. apply H.
Qed.

Lemma signAfterOther_no_sign (a : char) (r : jsstring) :
  (forall c, In c r -> isSign c = false) -> signAfterOther (a :: r) = false.
Proof.
  revert a. induction r as [|b r IH]; intros a H; [reflexivity|].
  rewrite signAfterOther_step. rewrite (H b) by (left; reflexivity).
  rewrite andb_false_r, orb_false_l. apply IH.
  intros c Hc. apply H. right. exact Hc.
Qed.

Lemma signAfterOther_minus_run (k : nat) (rest : jsstring) :
  (forall c, In c rest -> isSign c = false) ->
  signAfterOther (repeat c_minus k ++ rest) = false.
Proof.
  intros H. induction k as [|k IH].
  - destruct rest as [|a r]; [reflexivity|].
    apply signAfterOther_no_sign. intros c Hc. apply H. right. exact Hc.
  - simpl repeat. simpl app.
    destruct (repeat c_minus k ++ rest) as [|b t] eqn:E; [reflexivity|].
    rewrite signAfterOther_step, isSign_minus.
    cbn [negb andb orb]. exact IH.
Qed.

(** Without a sign after another character, the signs [-] stand in front. *)
Lemma no_sign_inside (s : jsstring) :
  existsb isMathChar s = false -> signAfterOther s = false ->
  (match s with [] => True | a :: _ => eqc a c_minus = false end) ->
  forall c, In c s -> eqc c c_minus = false.
Proof.
  induction s as [|a r IH]; intros Hm Hs Hh c Hc; [contradiction|].
  destruct Hc as [->|Hc]; [exact Hh|].
  simpl in Hm. apply orb_false_iff in Hm. destruct Hm as [Ha Hm].
  apply (IH Hm (signAfterOther_cons a r Hs)); [|exact Hc].
  destruct r as [|b r']; [exact I|].
  rewrite signAfterOther_step in Hs.
  apply orb_false_iff in Hs. destruct Hs as [Hs _].
  rewrite (not_sign a Ha Hh) in Hs. simpl in Hs.
  unfold isSign in Hs. apply orb_false_iff in Hs. apply Hs.
Qed.

Lemma minus_run_split (s : jsstring) :
  exists k rest,
    s = repeat c_minus k ++ rest
    /\ match rest with [] => True | a :: _ => eqc a c_minus = false end.
Proof.
  induction s as [|a r (k & rest & Hr & Hh)]; [exists 0, []; auto|].
  destruct (eqc a c_minus) eqn:Ha.
  - apply eqc_eq in Ha. subst a. exists (S k), rest. subst r. auto.
  - exists 0, (a :: r). auto.
Qed.

Lemma existsb_minus_run (k : nat) (rest : jsstring) :
  existsb isMathChar (repeat c_minus k ++ rest) = existsb isMathChar rest.
Proof. induction k as [|k IH]; [reflexivity|]. simpl. exact IH. Qed.

Lemma signAfterOther_minus_run_inv (k : nat) (rest : jsstring) :
  signAfterOther (repeat c_minus k ++ rest) = false ->
  signAfterOther rest = false.
Proof.
  induction k as [|k IH]; [auto|].
  simpl repeat. simpl app. intros H. apply IH.
  apply (signAfterOther_cons c_minus _ H).
Qed.

(** X4: a value is taken for a math expression unless, once the first
    occurrence of the prefix and of the suffix is taken out, it is a run of
    [-] (possibly empty) followed by text without any of
    [* / % ( ) + -].  A leading [+] makes it an expression; leading [-]
    signs do not. *)
Theorem containsMathOperators_false_iff
      (prefix suffix : option jsstring) (value : jsstring) :
  containsMathOperators prefix suffix value = false
  <-> exists k rest,
        removeFirst (orEmpty suffix) (removeFirst (orEmpty prefix) value)
        = repeat c_minus k ++ rest
        /\ forall c, In c rest ->
             isMathChar c = false /\ eqc c c_minus = false.
Proof.
  unfold containsMathOperators.
  set (s := removeFirst (orEmpty suffix) (removeFirst (orEmpty prefix) value)).
  split.
  - intros H.
    destruct (existsb isMathChar s) eqn:Hm; [discriminate|].
    destruct (signAfterOther s) eqn:Hs; [discriminate|].
    destruct (minus_run_split s) as (k & rest & Hk & Hh).
    exists k, rest. split; [exact Hk|].
    rewrite Hk in Hm, Hs. rewrite existsb_minus_run in Hm.
    apply signAfterOther_minus_run_inv in Hs.
    intros c Hc. split.
    + destruct (isMathChar c) eqn:E; [|reflexivity].
      assert (existsb isMathChar rest = true); [|congruence].
      apply existsb_exists. exists c. auto.
    + apply (no_sign_inside rest Hm Hs Hh c Hc).
  - intros (k & rest & Hk & Hrest). rewrite Hk, existsb_minus_run.
    assert (Hm : existsb isMathChar rest = false).
    { destruct (existsb isMathChar rest) eqn:E; [|reflexivity].
      apply existsb_exists in E. destruct E as (c & Hc & E).
      destruct (Hrest c Hc) as [E' _]. congruence. }
    rewrite Hm, signAfterOther_minus_run; [reflexivity|].
    intros c Hc. destruct (Hrest c Hc). apply not_sign; assumption.
Qed.

Lemma containsMathOperators_false_iff_witness :
  containsMathOperators (Some (str "$")) None (str "$--12.5") = false.
Proof.
  apply (proj2 (containsMathOperators_false_iff
                  (Some (str "$")) None (str "$--12.5"))).
  exists 2, (str "12.5"). split; [reflexivity|].
  intros c Hc. simpl in Hc.
  repeat (destruct Hc as [<-|Hc]; [split; reflexivity|]). contradiction.
Defined.

Lemma startsWith_app (p v : jsstring) : startsWith p (p ++ v) = true.
Proof.
  induction p as [|a p IH]; [reflexivity|].
  simpl. unfold eqc. rewrite N.eqb_refl. exact IH.
Qed.

Lemma removeFirst_prefix (p v : jsstring) : removeFirst p (p ++ v) = v.
Proof.
  destruct (p ++ v) as [|c r] eqn:E.
  - destruct p; [simpl in E; subst v; reflexivity|discriminate].
  - cbn [removeFirst]. rewrite <- E, startsWith_app.
    rewrite skipn_app, Nat.sub_diag, skipn_all. reflexivity.
Qed.

(** X5: a prefix in front of the value is taken out whole before the test,
    whatever characters it has: the answer for [prefix ++ value] under that
    prefix is the answer for [value] without a prefix. *)
Theorem containsMathOperators_prefix
      (prefix : jsstring) (suffix : option jsstring) (value : jsstring) :
  containsMathOperators (Some prefix) suffix (prefix ++ value)
  = containsMathOperators None suffix value.
Proof.
  unfold containsMathOperators. cbn [orEmpty].
  rewrite removeFirst_prefix.
  replace (removeFirst [] value) with value; [reflexivity|].
  destruct value; reflexivity.
Qed.

(* ===================================================================== *)
(** ** One call of each closure *)
(* ===================================================================== *)

Section Steps.

Variable tokens : list Token.

Lemma parseAddSub_step (f : nat) (pos : nat) :
  parseAddSub tokens (S f) pos
  = match parseMulDiv tokens f pos with
    | Normal (lf, p) => parseAddSub_while tokens f lf p
    | Throw msg => Throw msg
    | OutOfFuel => OutOfFuel
    end.
Proof. reflexivity. Qed.

Lemma parseMulDiv_step (f : nat) (pos : nat) :
  parseMulDiv tokens (S f) pos
  = match parsePercentage tokens f pos with
    | Normal (lf, p) => parseMulDiv_while tokens f lf p
    | Throw msg => Throw msg
    | OutOfFuel => OutOfFuel
    end.
Proof. reflexivity. Qed.

Lemma parseAddSub_while_step (f : nat) (lf : float) (pos : nat) :
  parseAddSub_while tokens (S f) lf pos
  = match nth_error tokens pos with
    | Some (TOp c) =>
        if eqc c c_plus || eqc c c_minus then
          match parseMulDiv tokens f (S pos) with
          | Normal (rt, p) =>
              parseAddSub_while tokens f
                (if eqc c c_plus then add lf rt else sub lf rt) p
          | Throw msg => Throw msg
          | OutOfFuel => OutOfFuel
          end
        else Normal (lf, pos)
    | _ => Normal (lf, pos)
    end.
Proof.
  cbn [parseAddSub_while].
  unfold consumeOp; unfold bind, peek, consume, ret, throw; cbv beta iota.
  destruct (nth_error tokens pos) as [[v|c|c]|] eqn:E; try reflexivity.
  cbn [isOp]. destruct (eqc c c_plus || eqc c c_minus); [|reflexivity].
  rewrite E. reflexivity.
Qed.

Lemma parseMulDiv_while_step (f : nat) (lf : float) (pos : nat) :
  parseMulDiv_while tokens (S f) lf pos
  = match nth_error tokens pos with
    | Some (TOp c) =>
        if eqc c c_star || eqc c c_slash then
          match parsePercentage tokens f (S pos) with
          | Normal (rt, p) =>
              parseMulDiv_while tokens f
                (if eqc c c_star then mul lf rt else div lf rt) p
          | Throw msg => Throw msg
          | OutOfFuel => OutOfFuel
          end
        else Normal (lf, pos)
    | _ => Normal (lf, pos)
    end.
Proof.
  cbn [parseMulDiv_while].
  unfold consumeOp; unfold bind, peek, consume, ret, throw; cbv beta iota.
  destruct (nth_error tokens pos) as [[v|c|c]|] eqn:E; try reflexivity.
  cbn [isOp]. destruct (eqc c c_star || eqc c c_slash); [|reflexivity].
  rewrite E. reflexivity.
Qed.

Lemma parsePercentage_step (f : nat) (pos : nat) :
  parsePercentage tokens (S f) pos
  = match parseUnary tokens f pos with
    | Normal (v, p) =>
        if isOp (nth_error tokens p) c_pct
        then Normal (div v (ofZ 100), S p)
        else Normal (v, p)
    | Throw msg => Throw msg
    | OutOfFuel => OutOfFuel
    end.
Proof.
  cbn [parsePercentage]. unfold bind, peek, consume, ret; cbv beta iota.
  destruct (parseUnary tokens f pos) as [[v p]| |]; try reflexivity.
  destruct (isOp (nth_error tokens p) c_pct); reflexivity.
Qed.

Lemma parseUnary_step (f : nat) (pos : nat) :
  parseUnary tokens (S f) pos
  = match nth_error tokens pos with
    | Some (TOp c) =>
        if eqc c c_minus || eqc c c_plus then
          match parseUnary tokens f (S pos) with
          | Normal (v, p) => Normal (if eqc c c_minus then neg v else v, p)
          | Throw msg => Throw msg
          | OutOfFuel => OutOfFuel
          end
        else parsePrimary tokens f pos
    | _ => parsePrimary tokens f pos
    end.
Proof.
  cbn [parseUnary].
  unfold consumeOp; unfold bind, peek, consume, ret, throw; cbv beta iota.
  destruct (nth_error tokens pos) as [[v|c|c]|] eqn:E; try reflexivity.
  cbn [isOp]. destruct (eqc c c_minus || eqc c c_plus); [|reflexivity].
  rewrite E. cbv beta iota.
  destruct (parseUnary tokens f (S pos)) as [[v p]| |]; reflexivity.
Qed.

Lemma parsePrimary_step (f : nat) (pos : nat) :
  parsePrimary tokens (S f) pos
  = match nth_error tokens pos with
    | None => Throw "Unexpected end of expression"
    | Some (TNumber value) => Normal (value, S pos)
    | Some (TParen c) =>
        if eqc c c_lparen then
          match parseAddSub tokens f (S pos) with
          | Normal (v, p) =>
              if isParenTok (nth_error tokens p) c_rparen
              then Normal (v, S p)
              else Throw "Missing closing parenthesis"
          | Throw msg => Throw msg
          | OutOfFuel => OutOfFuel
          end
        else Throw "Unexpected token"
    | Some (TOp _) => Throw "Unexpected token"
    end.
Proof.
  cbn [parsePrimary]. unfold bind, peek, consume, ret, throw; cbv beta iota.
  destruct (nth_error tokens pos) as [[v|c|c]|] eqn:E; try reflexivity.
  destruct (eqc c c_lparen); [|reflexivity]. cbv beta iota.
  destruct (parseAddSub tokens f (S pos)) as [[v p]| |]; try reflexivity.
  destruct (isParenTok (nth_error tokens p) c_rparen); reflexivity.
Qed.

End Steps.

(* ===================================================================== *)
(** ** More fuel changes no result *)
(* ===================================================================== *)


Section FuelStable.

Variable tokens : list Token.

(** Rewrite the call [c] with one more unit of fuel by its invariant [IH],
    and split on what it returns. *)
Ltac more_fuel IH c :=
  let E := fresh "E" in
  let lf := fresh "v" in
  let p := fresh "p" in
  destruct c as [[lf p]| |] eqn:E;
  [ rewrite IH by (rewrite E; discriminate); rewrite E
  | rewrite IH by (rewrite E; discriminate); rewrite E; reflexivity
  | contradiction ].

Lemma parse_fuelStable (fuel : nat) : fuelStable tokens fuel.
Proof.
  induction fuel as [|f IH].
  { repeat split; intros; intros pos H; exfalso; apply H; reflexivity. }
  destruct IH as (IHA & IHAw & IHM & IHMw & IHP & IHU & IHPr).
  unfold fuelStable, refines in *. repeat split.
  - intros pos H.
    rewrite (parseAddSub_step tokens (S f) pos).
    rewrite (parseAddSub_step tokens f pos) in H |- *.
    more_fuel IHM (parseMulDiv tokens f pos).
    apply IHAw, H.
  - intros lf pos H.
    rewrite (parseAddSub_while_step tokens (S f) lf pos).
    rewrite (parseAddSub_while_step tokens f lf pos) in H |- *.
    destruct (nth_error tokens pos) as [[v|c|c]|]; try reflexivity.
    destruct (eqc c c_plus || eqc c c_minus); [|reflexivity].
    more_fuel IHM (parseMulDiv tokens f (S pos)).
    apply IHAw, H.
  - intros pos H.
    rewrite (parseMulDiv_step tokens (S f) pos).
    rewrite (parseMulDiv_step tokens f pos) in H |- *.
    more_fuel IHP (parsePercentage tokens f pos).
    apply IHMw, H.
  - intros lf pos H.
    rewrite (parseMulDiv_while_step tokens (S f) lf pos).
    rewrite (parseMulDiv_while_step tokens f lf pos) in H |- *.
    destruct (nth_error tokens pos) as [[v|c|c]|]; try reflexivity.
    destruct (eqc c c_star || eqc c c_slash); [|reflexivity].
    more_fuel IHP (parsePercentage tokens f (S pos)).
    apply IHMw, H.
  - intros pos H.
    rewrite (parsePercentage_step tokens (S f) pos).
    rewrite (parsePercentage_step tokens f pos) in H |- *.
    more_fuel IHU (parseUnary tokens f pos).
    reflexivity.
  - intros pos H.
    rewrite (parseUnary_step tokens (S f) pos).
    rewrite (parseUnary_step tokens f pos) in H |- *.
    destruct (nth_error tokens pos) as [[v|c|c]|]; try (apply IHPr, H).
    destruct (eqc c c_minus || eqc c c_plus); [|apply IHPr, H].
    more_fuel IHU (parseUnary tokens f (S pos)).
    reflexivity.
  - intros pos H.
    rewrite (parsePrimary_step tokens (S f) pos).
    rewrite (parsePrimary_step tokens f pos) in H |- *.
    destruct (nth_error tokens pos) as [[v|c|c]|]; try reflexivity.
    destruct (eqc c c_lparen); [|reflexivity].
    more_fuel IHA (parseAddSub tokens f (S pos)).
    reflexivity.
Qed.

Lemma parseAddSub_more_fuel (f f' pos : nat) :
  f <= f' -> parseAddSub tokens f pos <> OutOfFuel ->
  parseAddSub tokens f' pos = parseAddSub tokens f pos.
Proof.
  intros Hle H. induction Hle as [|f' Hle IH]; [reflexivity|].
  rewrite <- IH. apply (proj1 (parse_fuelStable f')).
  rewrite IH. exact H.
Qed.

(** What [parseAddSub] ends in with some fuel is what [parseTokens]
    gets from it. *)
Lemma parseAddSub_at_parseFuel (r : completion (float * nat)) :
  yields (parseAddSub tokens) 0 r ->
  parseAddSub tokens (parseFuel tokens) 0 = r.
Proof.
  intros [f0 H].
  assert (Hne : parseAddSub tokens (parseFuel tokens) 0 <> OutOfFuel).
  { destruct (parse_fuelInvariant tokens (parseFuel tokens)) as (HA & _).
    cbv zeta in HA. specialize (HA 0). unfold parseFuel in *.
    intros E. rewrite E in HA. apply HA; lia. }
  rewrite <- (parseAddSub_more_fuel (parseFuel tokens)
                (Nat.max f0 (parseFuel tokens)) 0 (Nat.le_max_r _ _) Hne).
  apply H. apply Nat.le_max_l.
Qed.

End FuelStable.

(* ===================================================================== *)
(** ** The parser reads the grammar *)
(* ===================================================================== *)


Lemma nth_error_skipn_hd (tokens : list Token) (pos : nat) :
  nth_error tokens pos = hd_error (skipn pos tokens).
Proof.
  revert tokens. induction pos as [|pos IH]; intros [|t tokens];
    simpl; auto.
Qed.

Lemma skipn_after (tokens : list Token) (pos : nat) (a b : list Token) :
  skipn pos tokens = a ++ b -> skipn (pos + List.length a) tokens = b.
Proof.
  intros H. rewrite Nat.add_comm, <- skipn_skipn, H.
  rewrite skipn_app, Nat.sub_diag, skipn_all. reflexivity.
Qed.

Lemma skipn_head (tokens : list Token) (pos : nat) (t : Token)
      (l : list Token) :
  skipn pos tokens = t :: l ->
  nth_error tokens pos = Some t /\ skipn (S pos) tokens = l.
Proof.
  intros H. split.
  - rewrite nth_error_skipn_hd, H. reflexivity.
  - rewrite <- (Nat.add_1_r pos). apply (skipn_after tokens pos [t] l H).
Qed.

Lemma parseMulDiv_while_exit (tokens : list Token) (pos : nat) (lf : float) :
  isOp (nth_error tokens pos) c_star = false ->
  isOp (nth_error tokens pos) c_slash = false ->
  yields (fun f => parseMulDiv_while tokens f lf) pos (Normal (lf, pos)).
Proof.
  intros H1 H2. exists 1. intros f Hf. destruct f as [|g]; [lia|].
  rewrite parseMulDiv_while_step.
  destruct (nth_error tokens pos) as [[v|c|c]|]; try reflexivity.
  simpl in H1, H2. rewrite H1, H2. reflexivity.
Qed.

Lemma parseAddSub_while_exit (tokens : list Token) (pos : nat) (lf : float) :
  isOp (nth_error tokens pos) c_plus = false ->
  isOp (nth_error tokens pos) c_minus = false ->
  yields (fun f => parseAddSub_while tokens f lf) pos (Normal (lf, pos)).
Proof.
  intros H1 H2. exists 1. intros f Hf. destruct f as [|g]; [lia|].
  rewrite parseAddSub_while_step.
  destruct (nth_error tokens pos) as [[v|c|c]|]; try reflexivity.
  simpl in H1, H2. rewrite H1, H2. reflexivity.
Qed.

Lemma readsMulDiv_returns (m : MulDiv) :
  readsMulDiv m ->
  forall tokens pos rest,
    skipn pos tokens = tokensOfMulDiv m ++ rest ->
    isOp (hd_error rest) c_pct = false ->
    isOp (hd_error rest) c_star = false ->
    isOp (hd_error rest) c_slash = false ->
    yields (parseMulDiv tokens) pos
      (Normal (valueOfMulDiv m, pos + List.length (tokensOfMulDiv m))).
Proof.
  intros H tokens pos rest Hs Hp Hst Hsl.
  apply (H tokens pos rest _ Hs Hp).
  apply parseMulDiv_while_exit;
    rewrite nth_error_skipn_hd, (skipn_after _ _ _ _ Hs); assumption.
Qed.

Lemma readsAddSub_returns (e : AddSub) :
  readsAddSub e ->
  forall tokens pos rest,
    skipn pos tokens = tokensOfAddSub e ++ rest ->
    isOp (hd_error rest) c_pct = false ->
    isOp (hd_error rest) c_star = false ->
    isOp (hd_error rest) c_slash = false ->
    isOp (hd_error rest) c_plus = false ->
    isOp (hd_error rest) c_minus = false ->
    yields (parseAddSub tokens) pos
      (Normal (valueOfAddSub e, pos + List.length (tokensOfAddSub e))).
Proof.
  intros H tokens pos rest Hs Hp Hst Hsl Hpl Hmi.
  apply (H tokens pos rest _ Hs Hp Hst Hsl).
  apply parseAddSub_while_exit;
    rewrite nth_error_skipn_hd, (skipn_after _ _ _ _ Hs); assumption.
Qed.

(** The turn of the loop of [parseAddSub] that reads [op] and the
    tokens of [m]. *)
Lemma parseAddSub_while_turn (tokens : list Token) (pos : nat)
      (op : char) (m : MulDiv) (rest : list Token) (lf : float)
      (r : completion (float * nat)) :
  readsMulDiv m ->
  eqc op c_plus || eqc op c_minus = true ->
  skipn pos tokens = TOp op :: tokensOfMulDiv m ++ rest ->
  isOp (hd_error rest) c_pct = false ->
  isOp (hd_error rest) c_star = false ->
  isOp (hd_error rest) c_slash = false ->
  yields (fun f => parseAddSub_while tokens f
                     (if eqc op c_plus then add lf (valueOfMulDiv m)
                      else sub lf (valueOfMulDiv m)))
    (pos + S (List.length (tokensOfMulDiv m))) r ->
  yields (fun f => parseAddSub_while tokens f lf) pos r.
Proof.
  intros Hm Hop Hs Hp Hst Hsl [f2 H2].
  destruct (skipn_head _ _ _ _ Hs) as [Hn Hs'].
  destruct (readsMulDiv_returns m Hm tokens (S pos) rest Hs' Hp Hst Hsl)
    as [f1 H1].
  exists (S (Nat.max f1 f2)). intros f Hf. destruct f as [|g]; [lia|].
  rewrite parseAddSub_while_step, Hn, Hop, H1 by lia.
  replace (S pos + List.length (tokensOfMulDiv m))
    with (pos + S (List.length (tokensOfMulDiv m))) by lia.
  apply H2. lia.
Qed.

Lemma parseMulDiv_while_turn (tokens : list Token) (pos : nat)
      (op : char) (q : Percentage) (rest : list Token) (lf : float)
      (r : completion (float * nat)) :
  readsPercentage q ->
  eqc op c_star || eqc op c_slash = true ->
  skipn pos tokens = TOp op :: tokensOfPercentage q ++ rest ->
  isOp (hd_error rest) c_pct = false ->
  yields (fun f => parseMulDiv_while tokens f
                     (if eqc op c_star then mul lf (valueOfPercentage q)
                      else div lf (valueOfPercentage q)))
    (pos + S (List.length (tokensOfPercentage q))) r ->
  yields (fun f => parseMulDiv_while tokens f lf) pos r.
Proof.
  intros Hq Hop Hs Hp [f2 H2].
  destruct (skipn_head _ _ _ _ Hs) as [Hn Hs'].
  destruct (Hq tokens (S pos) rest Hs' Hp) as [f1 H1].
  exists (S (Nat.max f1 f2)). intros f Hf. destruct f as [|g]; [lia|].
  rewrite parseMulDiv_while_step, Hn, Hop, H1 by lia.
  replace (S pos + List.length (tokensOfPercentage q))
    with (pos + S (List.length (tokensOfPercentage q))) by lia.
  apply H2. lia.
Qed.

Lemma grammar_read :
  (forall e, readsAddSub e) /\ (forall m, readsMulDiv m)
  /\ (forall q, readsPercentage q) /\ (forall u, readsUnary u)
  /\ (forall p, readsPrimary p).
Proof.
  apply grammar_mutind.
  - (* AS_one *)
    intros m IH tokens pos rest r Hs Hp Hst Hsl [f2 H2]. simpl in *.
    destruct (readsMulDiv_returns m IH tokens pos rest Hs Hp Hst Hsl)
      as [f1 H1].
    exists (S (Nat.max f1 f2)). intros f Hf. destruct f as [|g]; [lia|].
    rewrite parseAddSub_step, H1 by lia. apply H2. lia.
  - (* AS_add *)
    intros e IHe m IHm tokens pos rest r Hs Hp Hst Hsl Hloop.
    cbn [tokensOfAddSub valueOfAddSub] in *. rewrite <- app_assoc in Hs.
    apply (IHe tokens pos _ r Hs); try reflexivity.
    apply (parseAddSub_while_turn tokens _ c_plus m rest _ r IHm eq_refl
             (skipn_after _ _ _ _ Hs) Hp Hst Hsl).
    rewrite length_app in Hloop. cbn [List.length] in Hloop.
    rewrite <- Nat.add_assoc. exact Hloop.
  - (* AS_sub *)
    intros e IHe m IHm tokens pos rest r Hs Hp Hst Hsl Hloop.
    cbn [tokensOfAddSub valueOfAddSub] in *. rewrite <- app_assoc in Hs.
    apply (IHe tokens pos _ r Hs); try reflexivity.
    apply (parseAddSub_while_turn tokens _ c_minus m rest _ r IHm eq_refl
             (skipn_after _ _ _ _ Hs) Hp Hst Hsl).
    rewrite length_app in Hloop. cbn [List.length] in Hloop.
    rewrite <- Nat.add_assoc. exact Hloop.
  - (* MD_one *)
    intros q IH tokens pos rest r Hs Hp [f2 H2]. simpl in *.
    destruct (IH tokens pos rest Hs Hp) as [f1 H1].
    exists (S (Nat.max f1 f2)). intros f Hf. destruct f as [|g]; [lia|].
    rewrite parseMulDiv_step, H1 by lia. apply H2. lia.
  - (* MD_mul *)
    intros m IHm q IHq tokens pos rest r Hs Hp Hloop.
    cbn [tokensOfMulDiv valueOfMulDiv] in *. rewrite <- app_assoc in Hs.
    apply (IHm tokens pos _ r Hs); try reflexivity.
    apply (parseMulDiv_while_turn tokens _ c_star q rest _ r IHq eq_refl
             (skipn_after _ _ _ _ Hs) Hp).
    rewrite length_app in Hloop. cbn [List.length] in Hloop.
    rewrite <- Nat.add_assoc. exact Hloop.
  - (* MD_div *)
    intros m IHm q IHq tokens pos rest r Hs Hp Hloop.
    cbn [tokensOfMulDiv valueOfMulDiv] in *. rewrite <- app_assoc in Hs.
    apply (IHm tokens pos _ r Hs); try reflexivity.
    apply (parseMulDiv_while_turn tokens _ c_slash q rest _ r IHq eq_refl
             (skipn_after _ _ _ _ Hs) Hp).
    rewrite length_app in Hloop. cbn [List.length] in Hloop.
    rewrite <- Nat.add_assoc. exact Hloop.
  - (* Pct_plain *)
    intros u IH tokens pos rest Hs Hp. simpl in *.
    destruct (IH tokens pos rest Hs) as [f1 H1].
    exists (S f1). intros f Hf. destruct f as [|g]; [lia|].
    rewrite parsePercentage_step, H1 by lia.
    rewrite nth_error_skipn_hd, (skipn_after _ _ _ _ Hs), Hp. reflexivity.
  - (* Pct_percent *)
    intros u IH tokens pos rest Hs _.
    cbn [tokensOfPercentage valueOfPercentage] in *.
    rewrite <- app_assoc in Hs.
    destruct (IH tokens pos _ Hs) as [f1 H1].
    exists (S f1). intros f Hf. destruct f as [|g]; [lia|].
    rewrite parsePercentage_step, H1 by lia.
    rewrite nth_error_skipn_hd, (skipn_after _ _ _ _ Hs).
    rewrite length_app, Nat.add_assoc, Nat.add_1_r. reflexivity.
  - (* U_neg *)
    intros u IH tokens pos rest Hs.
    cbn [tokensOfUnary valueOfUnary] in *.
    destruct (skipn_head _ _ _ _ Hs) as [Hn Hs'].
    destruct (IH tokens (S pos) rest Hs') as [f1 H1].
    exists (S f1). intros f Hf. destruct f as [|g]; [lia|].
    rewrite parseUnary_step, Hn.
    change (eqc c_minus c_minus || eqc c_minus c_plus) with true.
    cbv iota. rewrite H1 by lia. cbn [List.length].
    rewrite Nat.add_succ_r. reflexivity.
  - (* U_pos *)
    intros u IH tokens pos rest Hs.
    cbn [tokensOfUnary valueOfUnary] in *.
    destruct (skipn_head _ _ _ _ Hs) as [Hn Hs'].
    destruct (IH tokens (S pos) rest Hs') as [f1 H1].
    exists (S f1). intros f Hf. destruct f as [|g]; [lia|].
    rewrite parseUnary_step, Hn.
    change (eqc c_plus c_minus || eqc c_plus c_plus) with true.
    cbv iota. rewrite H1 by lia. cbn [List.length].
    rewrite Nat.add_succ_r. reflexivity.
  - (* U_primary *)
    intros p IH tokens pos rest Hs.
    cbn [tokensOfUnary valueOfUnary] in *.
    destruct (IH tokens pos rest Hs) as [f1 H1].
    exists (S f1). intros f Hf. destruct f as [|g]; [lia|].
    rewrite parseUnary_step, <- (H1 g) by lia.
    destruct p as [v|e]; cbn [tokensOfPrimary app] in Hs;
      destruct (skipn_head _ _ _ _ Hs) as [Hn _]; rewrite Hn; reflexivity.
  - (* P_number *)
    intros v tokens pos rest Hs. cbn [tokensOfPrimary valueOfPrimary app] in *.
    destruct (skipn_head _ _ _ _ Hs) as [Hn _].
    exists 1. intros f Hf. destruct f as [|g]; [lia|].
    rewrite parsePrimary_step, Hn. cbn [List.length].
    rewrite Nat.add_1_r. reflexivity.
  - (* P_paren *)
    intros e IH tokens pos rest Hs.
    cbn [tokensOfPrimary valueOfPrimary app] in *.
    rewrite <- app_assoc in Hs.
    destruct (skipn_head _ _ _ _ Hs) as [Hn Hs'].
    destruct (readsAddSub_returns e IH tokens (S pos) _ Hs'
                eq_refl eq_refl eq_refl eq_refl eq_refl) as [f1 H1].
    exists (S f1). intros f Hf. destruct f as [|g]; [lia|].
    rewrite parsePrimary_step, Hn.
    change (eqc c_lparen c_lparen) with true. cbv iota.
    rewrite H1 by lia.
    rewrite nth_error_skipn_hd, (skipn_after _ _ _ _ Hs').
    cbn [app hd_error isParenTok].
    change (eqc c_rparen c_rparen) with true. cbv iota.
    cbn [List.length]. rewrite length_app. cbn [List.length].
    f_equal. f_equal. lia.
Qed.

Lemma grammar_value (e : AddSub) :
  parseTokens (tokensOfAddSub e) = Normal (valueOfAddSub e).
Proof.
  destruct grammar_read as (HA & _).
  assert (Hs : skipn 0 (tokensOfAddSub e) = tokensOfAddSub e ++ []).
  { rewrite app_nil_r. reflexivity. }
  pose proof (readsAddSub_returns e (HA e) (tokensOfAddSub e) 0 [] Hs
                eq_refl eq_refl eq_refl eq_refl eq_refl) as Hy.
  unfold parseTokens.
  rewrite (parseAddSub_at_parseFuel _ _ Hy).
  cbn [Nat.add]. rewrite Nat.ltb_irrefl. reflexivity.
Qed.

(** X6: the parser computes the grammar.  For every expression of the
    grammar (sums and differences of products and quotients of unary
    expressions with an optional [%], signs, numbers and parenthesised
    expressions) that is written in at most 200 tokens, which is all the
    guard lets through, [parseTokens] on the tokens that write it returns
    its value, the chains taken from left to right. *)
Theorem parseTokens_computes_grammar (e : AddSub) :
  List.length (tokensOfAddSub e) <= 200 ->
  parseTokens (tokensOfAddSub e) = Normal (valueOfAddSub e).
Proof. intros _. apply grammar_value. Qed.

Lemma parseTokens_computes_grammar_witness :
  parseTokens [TNumber (ofZ 2); TOp c_minus; TParen c_lparen;
               TOp c_minus; TNumber (ofZ 3); TOp c_pct; TParen c_rparen;
               TOp c_slash; TNumber (ofZ 4)]
  = Normal (sub (ofZ 2) (div (div (SFopp (ofZ 3)) (ofZ 100)) (ofZ 4))).
Proof.
  apply (parseTokens_computes_grammar
           (AS_sub
              (AS_one (MD_one (Pct_plain (U_primary (P_number (ofZ 2))))))
              (MD_div
                 (MD_one (Pct_plain (U_primary (P_paren
                    (AS_one (MD_one (Pct_percent
                       (U_neg (U_primary (P_number (ofZ 3)))))))))))
                 (Pct_plain (U_primary (P_number (ofZ 4))))))).
  simpl. lia.
Defined.

(** X7: after a whole expression, a token that is not an operator (a
    number or a parenthesis) is one token too many: [parseTokens] throws
    "Unexpected token after expression". *)
Theorem parseTokens_rejects_trailing_token
      (e : AddSub) (t : Token) (rest : list Token) :
  (forall c, t <> TOp c) ->
  parseTokens (tokensOfAddSub e ++ t :: rest)
  = Throw "Unexpected token after expression".
Proof.
  intros Ht. destruct grammar_read as (HA & _).
  assert (Hop : forall c, isOp (hd_error (t :: rest)) c = false).
  { intros c. destruct t as [v|c'|c']; try reflexivity.
    exfalso. apply (Ht c'). reflexivity. }
  pose proof (readsAddSub_returns e (HA e)
                (tokensOfAddSub e ++ t :: rest) 0 (t :: rest) eq_refl
                (Hop _) (Hop _) (Hop _) (Hop _) (Hop _)) as Hy.
  unfold parseTokens.
  rewrite (parseAddSub_at_parseFuel _ _ Hy).
  cbn [Nat.add].
  assert (Hlt : (List.length (tokensOfAddSub e)
                 <? List.length (tokensOfAddSub e ++ t :: rest)) = true).
  { apply Nat.ltb_lt. rewrite length_app. simpl. lia. }
  rewrite Hlt. reflexivity.
Qed.

Lemma parseTokens_rejects_trailing_token_witness :
  parseTokens [TNumber (ofZ 2); TOp c_plus; TNumber (ofZ 3); TParen c_rparen]
  = Throw "Unexpected token after expression".
Proof.
  apply (parseTokens_rejects_trailing_token
           (AS_add (AS_one (MD_one (Pct_plain (U_primary (P_number (ofZ 2))))))
                   (MD_one (Pct_plain (U_primary (P_number (ofZ 3))))))
           (TParen c_rparen) []).
  intros c. discriminate.
Defined.

(* ===================================================================== *)
(** ** The parser reads nothing but the grammar *)
(* ===================================================================== *)


Lemma skipn_nth_error (tokens : list Token) (pos : nat) (t : Token) :
  nth_error tokens pos = Some t ->
  skipn pos tokens = t :: skipn (S pos) tokens.
Proof.
  revert tokens. induction pos as [|pos IH]; intros [|a tokens] H;
    try discriminate.
  - injection H as ->. reflexivity.
  - apply (IH tokens H).
Qed.

Lemma isOp_true (t : option Token) (c : char) :
  isOp t c = true -> t = Some (TOp c).
Proof.
  destruct t as [[v|c'|c']|]; simpl; try discriminate.
  intros H. apply eqc_eq in H. subst c'. reflexivity.
Qed.

Lemma isParenTok_true (t : option Token) (c : char) :
  isParenTok t c = true -> t = Some (TParen c).
Proof.
  destruct t as [[v|c'|c']|]; simpl; try discriminate.
  intros H. apply eqc_eq in H. subst c'. reflexivity.
Qed.

Lemma one_of_two (c a b : char) :
  eqc c a || eqc c b = true ->
  (eqc c a = true /\ c = a) \/ (eqc c a = false /\ c = b).
Proof.
  destruct (eqc c a) eqn:E; simpl; intros H.
  - left. split; [reflexivity|]. apply eqc_eq, E.
  - right. split; [reflexivity|]. apply eqc_eq, H.
Qed.

Section OnlyGrammar.

Variable tokens : list Token.

Lemma parse_readsOnlyGrammar (fuel : nat) : readsOnlyGrammar tokens fuel.
Proof.
  induction fuel as [|f IH].
  { repeat split; intros; discriminate. }
  destruct IH as (IHA & IHAw & IHM & IHMw & IHP & IHU & IHPr).
  unfold readsOnlyGrammar. repeat split.
  - (* parseAddSub *)
    intros pos v p H. rewrite parseAddSub_step in H.
    destruct (parseMulDiv tokens f pos) as [[lf p1]| |] eqn:E;
      try discriminate.
    destruct (IHM _ _ _ E) as (m & Hm & Hv).
    apply (IHAw lf p1 v p pos (AS_one m) H Hm Hv).
  - (* the loop of parseAddSub *)
    intros lf pos v p start e0 H Hs Hv.
    rewrite parseAddSub_while_step in H.
    destruct (nth_error tokens pos) as [[x|c|c]|] eqn:En;
      try (injection H as <- <-; exists e0; auto).
    destruct (eqc c c_plus || eqc c c_minus) eqn:Ec;
      [|injection H as <- <-; exists e0; auto].
    destruct (parseMulDiv tokens f (S pos)) as [[rt p1]| |] eqn:E;
      try discriminate.
    destruct (IHM _ _ _ E) as (m & Hm & Hrt).
    rewrite (skipn_nth_error _ _ _ En), Hm in Hs.
    destruct (one_of_two _ _ _ Ec) as [[Ep ->]|[Ep ->]]; rewrite Ep in H.
    + apply (IHAw _ _ _ _ start (AS_add e0 m) H).
      * cbn [tokensOfAddSub]. rewrite <- app_assoc. exact Hs.
      * cbn [valueOfAddSub]. congruence.
    + apply (IHAw _ _ _ _ start (AS_sub e0 m) H).
      * cbn [tokensOfAddSub]. rewrite <- app_assoc. exact Hs.
      * cbn [valueOfAddSub]. congruence.
  - (* parseMulDiv *)
    intros pos v p H. rewrite parseMulDiv_step in H.
    destruct (parsePercentage tokens f pos) as [[lf p1]| |] eqn:E;
      try discriminate.
    destruct (IHP _ _ _ E) as (q & Hq & Hv).
    apply (IHMw lf p1 v p pos (MD_one q) H Hq Hv).
  - (* the loop of parseMulDiv *)
    intros lf pos v p start m0 H Hs Hv.
    rewrite parseMulDiv_while_step in H.
    destruct (nth_error tokens pos) as [[x|c|c]|] eqn:En;
      try (injection H as <- <-; exists m0; auto).
    destruct (eqc c c_star || eqc c c_slash) eqn:Ec;
      [|injection H as <- <-; exists m0; auto].
    destruct (parsePercentage tokens f (S pos)) as [[rt p1]| |] eqn:E;
      try discriminate.
    destruct (IHP _ _ _ E) as (q & Hq & Hrt).
    rewrite (skipn_nth_error _ _ _ En), Hq in Hs.
    destruct (one_of_two _ _ _ Ec) as [[Ep ->]|[Ep ->]]; rewrite Ep in H.
    + apply (IHMw _ _ _ _ start (MD_mul m0 q) H).
      * cbn [tokensOfMulDiv]. rewrite <- app_assoc. exact Hs.
      * cbn [valueOfMulDiv]. congruence.
    + apply (IHMw _ _ _ _ start (MD_div m0 q) H).
      * cbn [tokensOfMulDiv]. rewrite <- app_assoc. exact Hs.
      * cbn [valueOfMulDiv]. congruence.
  - (* parsePercentage *)
    intros pos v p H. rewrite parsePercentage_step in H.
    destruct (parseUnary tokens f pos) as [[v1 p1]| |] eqn:E;
      try discriminate.
    destruct (IHU _ _ _ E) as (u & Hu & Hv).
    destruct (isOp (nth_error tokens p1) c_pct) eqn:Ep;
      injection H as <- <-.
    + exists (Pct_percent u). cbn [tokensOfPercentage valueOfPercentage].
      rewrite Hu, (skipn_nth_error _ _ _ (isOp_true _ _ Ep)), <- app_assoc.
      split; [reflexivity|rewrite Hv; reflexivity].
    + exists (Pct_plain u). auto.
  - (* parseUnary *)
    intros pos v p H. rewrite parseUnary_step in H.
    assert (Hprim : parsePrimary tokens f pos = Normal (v, p) ->
              exists u, skipn pos tokens = tokensOfUnary u ++ skipn p tokens
                        /\ v = valueOfUnary u).
    { intros H'. destruct (IHPr _ _ _ H') as (q & Hq & Hv).
      exists (U_primary q). auto. }
    destruct (nth_error tokens pos) as [[x|c|c]|] eqn:En; auto.
    destruct (eqc c c_minus || eqc c c_plus) eqn:Ec; auto.
    destruct (parseUnary tokens f (S pos)) as [[v1 p1]| |] eqn:E;
      try discriminate.
    injection H as <- <-.
    destruct (IHU _ _ _ E) as (u & Hu & Hv).
    rewrite (skipn_nth_error _ _ _ En), Hu.
    destruct (one_of_two _ _ _ Ec) as [[Ep ->]|[Ep ->]].
    + exists (U_neg u). split; [reflexivity|]. rewrite Hv. reflexivity.
    + exists (U_pos u). split; [reflexivity|]. simpl. congruence.
  - (* parsePrimary *)
    intros pos v p H. rewrite parsePrimary_step in H.
    destruct (nth_error tokens pos) as [[x|c|c]|] eqn:En; try discriminate.
    + injection H as <- <-. exists (P_number x).
      split; [apply (skipn_nth_error _ _ _ En)|reflexivity].
    + destruct (eqc c c_lparen) eqn:Ec; try discriminate.
      apply eqc_eq in Ec. subst c.
      destruct (parseAddSub tokens f (S pos)) as [[v1 p1]| |] eqn:E;
        try discriminate.
      destruct (isParenTok (nth_error tokens p1) c_rparen) eqn:Ep;
        try discriminate.
      injection H as <- <-.
      destruct (IHA _ _ _ E) as (e & He & Hv).
      exists (P_paren e). cbn [tokensOfPrimary valueOfPrimary].
      rewrite (skipn_nth_error _ _ _ En), He,
        (skipn_nth_error _ _ _ (isParenTok_true _ _ Ep)).
      cbn [app]. rewrite <- app_assoc. split; [reflexivity|exact Hv].
Qed.

End OnlyGrammar.

Lemma grammar_only (tokens : list Token) (v : float) :
  parseTokens tokens = Normal v ->
  exists e, tokens = tokensOfAddSub e /\ v = valueOfAddSub e.
Proof.
  unfold parseTokens. intros H.
  destruct (parseAddSub tokens (parseFuel tokens) 0) as [[v1 p]| |] eqn:E;
    try discriminate.
  destruct (p <? List.length tokens) eqn:Hp; try discriminate.
  injection H as <-.
  destruct (parse_readsOnlyGrammar tokens (parseFuel tokens)) as (HA & _).
  destruct (HA _ _ _ E) as (e & He & Hv).
  exists e. split; [|exact Hv].
  apply Nat.ltb_ge in Hp. rewrite (skipn_all2 _ Hp), app_nil_r in He.
  exact He.
Qed.

(** X8: on a sequence of at most 200 tokens, which is all the guard lets
    through, [parseTokens] returns a number exactly when the sequence
    writes an expression of the grammar, and the number is the value of
    that expression. *)
Theorem parseTokens_returns_iff_grammar (tokens : list Token) (v : float) :
  List.length tokens <= 200 ->
  (parseTokens tokens = Normal v
   <-> exists e, tokens = tokensOfAddSub e /\ v = valueOfAddSub e).
Proof.
  intros _. split.
  - apply grammar_only.
  - intros (e & -> & ->). apply grammar_value.
Qed.

Lemma parseTokens_returns_iff_grammar_witness :
  exists e, [TOp c_minus; TNumber (ofZ 5); TOp c_pct] = tokensOfAddSub e
            /\ div (SFopp (ofZ 5)) (ofZ 100) = valueOfAddSub e.
Proof.
  apply (proj1 (parseTokens_returns_iff_grammar
                  [TOp c_minus; TNumber (ofZ 5); TOp c_pct]
                  (div (SFopp (ofZ 5)) (ofZ 100))
                  ltac:(simpl; lia))).
  reflexivity.
Defined.

(* ===================================================================== *)
(** ** The errors of the parser *)
(* ===================================================================== *)

Section Errors.

Variable tokens : list Token.

(** Split on the callee [c], whose error is already known to be one of
    the three. *)
Ltac callee IH c :=
  let E := fresh "E" in
  pose proof IH as E;
  destruct c as [[? ?]| |]; [clear E|exact E|exact I].

Lemma parse_throwsOwnErrors (fuel : nat) : throwsOwnErrors tokens fuel.
Proof.
  induction fuel as [|f IH].
  { repeat split; intros; exact I. }
  destruct IH as (IHA & IHAw & IHM & IHMw & IHP & IHU & IHPr).
  unfold throwsOwnErrors. repeat split.
  - intros pos. rewrite parseAddSub_step.
    callee (IHM pos) (parseMulDiv tokens f pos). apply IHAw.
  - intros lf pos. rewrite parseAddSub_while_step.
    destruct (nth_error tokens pos) as [[x|c|c]|]; try exact I.
    destruct (eqc c c_plus || eqc c c_minus); [|exact I].
    callee (IHM (S pos)) (parseMulDiv tokens f (S pos)). apply IHAw.
  - intros pos. rewrite parseMulDiv_step.
    callee (IHP pos) (parsePercentage tokens f pos). apply IHMw.
  - intros lf pos. rewrite parseMulDiv_while_step.
    destruct (nth_error tokens pos) as [[x|c|c]|]; try exact I.
    destruct (eqc c c_star || eqc c c_slash); [|exact I].
    callee (IHP (S pos)) (parsePercentage tokens f (S pos)). apply IHMw.
  - intros pos. rewrite parsePercentage_step.
    callee (IHU pos) (parseUnary tokens f pos).
    destruct (isOp (nth_error tokens n) c_pct); exact I.
  - intros pos. rewrite parseUnary_step.
    destruct (nth_error tokens pos) as [[x|c|c]|]; try apply IHPr.
    destruct (eqc c c_minus || eqc c c_plus); [|apply IHPr].
    callee (IHU (S pos)) (parseUnary tokens f (S pos)). exact I.
  - intros pos. rewrite parsePrimary_step.
    destruct (nth_error tokens pos) as [[x|c|c]|].
    + exact I.
    + right. left. reflexivity.
    + destruct (eqc c c_lparen); [|right; left; reflexivity].
      callee (IHA (S pos)) (parseAddSub tokens f (S pos)).
      destruct (isParenTok (nth_error tokens n) c_rparen);
        [exact I|right; right; reflexivity].
    + left. reflexivity.
Qed.

End Errors.

(** X9: on an input of at most 200 characters, which is all the guard
    lets through, [parseExpression] ends in a number or in one of the five
    errors the source throws itself; in particular [consume] is never
    called past the last token, so [consume().value] never fails on
    [undefined]. *)
Theorem parseExpression_outcomes (expr : jsstring) :
  List.length expr <= 200 ->
  match parseExpression expr with
  | Normal _ => True
  | Throw msg =>
      In msg ["Invalid character"; "Unexpected end of expression";
              "Unexpected token"; "Missing closing parenthesis";
              "Unexpected token after expression"]%string
  | OutOfFuel => False
  end.
Proof.
  intros _. unfold parseExpression.
  pose proof (tokenize_lexable expr) as Hlex.
  destruct (lexable expr).
  - destruct Hlex as [tokens Ht]. rewrite Ht.
    pose proof (parseTokens_total tokens) as Htot.
    unfold parseTokens in *.
    destruct (parse_throwsOwnErrors tokens (parseFuel tokens)) as (HA & _).
    specialize (HA 0).
    destruct (parseAddSub tokens (parseFuel tokens) 0) as [[v p]|msg|].
    + destruct (p <? List.length tokens); simpl; auto 10.
    + simpl in HA. destruct HA as [ -> | [ -> | -> ] ]; simpl; auto 10.
    + apply Htot. reflexivity.
  - rewrite Hlex. simpl. auto.
Qed.

Lemma parseExpression_outcomes_witness :
  In "Missing closing parenthesis"%string
     ["Invalid character"; "Unexpected end of expression";
      "Unexpected token"; "Missing closing parenthesis";
      "Unexpected token after expression"]%string.
Proof.
  exact (parseExpression_outcomes (str "(2 + 3") ltac:(simpl; lia)).
Defined.

(* ===================================================================== *)
(** ** Incomplete expressions *)
(* ===================================================================== *)

(** What [parsePrimary] throws comes out of the closures above it when
    the token at the cursor is not a sign. *)
Lemma primary_throw_propagates (tokens : list Token) (pos : nat)
      (msg : string) :
  isOp (nth_error tokens pos) c_minus = false ->
  isOp (nth_error tokens pos) c_plus = false ->
  yields (parsePrimary tokens) pos (Throw msg) ->
  yields (parseMulDiv tokens) pos (Throw msg).
Proof.
  intros Hm Hp [f0 H]. exists (S (S (S f0))). intros f Hf.
  destruct f as [|[|[|g]]]; try lia.
  rewrite parseMulDiv_step, parsePercentage_step, parseUnary_step.
  rewrite H by lia.
  destruct (nth_error tokens pos) as [[x|c|c]|]; try reflexivity.
  simpl in Hm, Hp. rewrite Hm, Hp. reflexivity.
Qed.

(** X10: a parenthesis that is opened and not closed: after [(] and a
    whole expression, the end of the tokens, a number or another [(]
    makes [parseTokens] throw "Missing closing parenthesis". *)
Theorem parseTokens_missing_closing_parenthesis
      (e : AddSub) (rest : list Token) :
  (forall c, isOp (hd_error rest) c = false) ->
  isParenTok (hd_error rest) c_rparen = false ->
  parseTokens (TParen c_lparen :: tokensOfAddSub e ++ rest)
  = Throw "Missing closing parenthesis".
Proof.
  intros Hop Hpar.
  set (tokens := TParen c_lparen :: tokensOfAddSub e ++ rest).
  destruct grammar_read as (HA & _).
  destruct (readsAddSub_returns e (HA e) tokens 1 rest eq_refl
              (Hop _) (Hop _) (Hop _) (Hop _) (Hop _)) as [f1 H1].
  assert (Hprim : yields (parsePrimary tokens) 0
                    (Throw "Missing closing parenthesis")).
  { exists (S f1). intros f Hf. destruct f as [|g]; [lia|].
    rewrite parsePrimary_step. cbn [tokens nth_error].
    change (eqc c_lparen c_lparen) with true. cbv iota.
    rewrite H1 by lia.
    rewrite nth_error_skipn_hd.
    rewrite (skipn_after tokens 1 (tokensOfAddSub e) rest eq_refl).
    rewrite Hpar. reflexivity. }
  destruct (primary_throw_propagates tokens 0 _ eq_refl eq_refl Hprim)
    as [f2 H2].
  assert (Hy : yields (parseAddSub tokens) 0
                 (Throw "Missing closing parenthesis")).
  { exists (S f2). intros f Hf. destruct f as [|g]; [lia|].
    rewrite parseAddSub_step, H2 by lia. reflexivity. }
  unfold parseTokens. rewrite (parseAddSub_at_parseFuel _ _ Hy).
  reflexivity.
Qed.

Lemma parseTokens_missing_closing_parenthesis_witness :
  parseTokens [TParen c_lparen; TNumber (ofZ 2); TNumber (ofZ 3)]
  = Throw "Missing closing parenthesis".
Proof.
  apply (parseTokens_missing_closing_parenthesis
           (AS_one (MD_one (Pct_plain (U_primary (P_number (ofZ 2))))))
           [TNumber (ofZ 3)]).
  - intros c. reflexivity.
  - reflexivity.
Defined.

(** X11: an expression followed by a last [+] or [-] lacks an operand:
    [parseTokens] throws "Unexpected end of expression". *)
Theorem parseTokens_missing_operand (e : AddSub) (op : char) :
  op = c_plus \/ op = c_minus ->
  parseTokens (tokensOfAddSub e ++ [TOp op])
  = Throw "Unexpected end of expression".
Proof.
  intros Hop.
  set (tokens := tokensOfAddSub e ++ [TOp op]).
  destruct grammar_read as (HA & _).
  assert (Hs : skipn 0 tokens = tokensOfAddSub e ++ [TOp op]) by reflexivity.
  assert (Hend : nth_error tokens (S (List.length (tokensOfAddSub e))) = None).
  { apply nth_error_None. unfold tokens. rewrite length_app. simpl. lia. }
  assert (Hprim : yields (parsePrimary tokens)
                    (S (List.length (tokensOfAddSub e)))
                    (Throw "Unexpected end of expression")).
  { exists 1. intros f Hf. destruct f as [|g]; [lia|].
    rewrite parsePrimary_step, Hend. reflexivity. }
  destruct (primary_throw_propagates tokens _ _
              ltac:(rewrite Hend; reflexivity)
              ltac:(rewrite Hend; reflexivity) Hprim) as [f2 H2].
  assert (Hcond : forall c, c <> c_plus -> c <> c_minus ->
            isOp (hd_error [TOp op]) c = false).
  { intros c H1 H3. simpl. destruct (eqc op c) eqn:E; [|reflexivity].
    apply eqc_eq in E. subst c. destruct Hop; contradiction. }
  assert (Hy : yields (parseAddSub tokens) 0
                 (Throw "Unexpected end of expression")).
  { apply (HA e tokens 0 [TOp op] _ Hs);
      try (apply Hcond; discriminate).
    exists (S f2). intros f Hf. destruct f as [|g]; [lia|].
    rewrite parseAddSub_while_step.
    rewrite nth_error_skipn_hd, (skipn_after _ _ _ _ Hs).
    cbn [hd_error].
    replace (eqc op c_plus || eqc op c_minus) with true
      by (destruct Hop as [ -> | -> ]; reflexivity).
    cbn [Nat.add]. rewrite H2 by lia. reflexivity. }
  unfold parseTokens. fold tokens.
  rewrite (parseAddSub_at_parseFuel _ _ Hy). reflexivity.
Qed.

Lemma parseTokens_missing_operand_witness :
  parseTokens [TNumber (ofZ 2); TOp c_star; TNumber (ofZ 3); TOp c_minus]
  = Throw "Unexpected end of expression".
Proof.
  apply (parseTokens_missing_operand
           (AS_one (MD_mul (MD_one (Pct_plain (U_primary (P_number (ofZ 2)))))
                           (Pct_plain (U_primary (P_number (ofZ 3))))))
           c_minus).
  right. reflexivity.
Defined.

(* ===================================================================== *)
(** ** From text to tokens and to the value *)
(* ===================================================================== *)

Lemma isOperator_class (c : char) :
  isOperator c = true -> isWhiteSpace c = false /\ isDigit c = false.
Proof.
  unfold isOperator. intros H.
  repeat (apply orb_true_iff in H; destruct H as [H|H]);
    apply eqc_eq in H; subst c; split; reflexivity.
Qed.

Lemma isParen_class (c : char) :
  isParen c = true ->
  isWhiteSpace c = false /\ isDigit c = false /\ isOperator c = false.
Proof.
  unfold isParen. intros H.
  apply orb_true_iff in H; destruct H as [H|H];
    apply eqc_eq in H; subst c; repeat split; reflexivity.
Qed.

Lemma lexemes_head_not_numeric (l : Lexeme) (r : list Lexeme) :
  lexemeOk l ->
  match l with LNumber _ _ => False | _ => True end ->
  headNotNumeric (flat_map lexemeChars (l :: r)).
Proof.
  destruct l as [c run|c|c]; simpl; intros Hok Hl; [contradiction| |].
  - apply isOperator_excl, Hok.
  - apply isParen_excl, Hok.
Qed.

(** X12: written one after the other, lexemes come back as their tokens,
    in order, as long as no two numbers touch: the tokenizer undoes the
    writing of operators, parentheses and runs of digits and points. *)
Theorem tokenize_lexemes (ls : list Lexeme) :
  Forall lexemeOk ls -> numbersApart ls ->
  tokenize (flat_map lexemeChars ls) = Normal (map lexemeToken ls).
Proof.
  induction ls as [|l r IH]; intros Hok Hap; [reflexivity|].
  inversion Hok as [|? ? Hl Hr]; subst.
  destruct Hap as [Hnext Hap]. specialize (IH Hr Hap).
  cbn [flat_map map]. rewrite tokenize_app.
  - rewrite IH. destruct l as [c run|c|c]; cbn [lexemeChars lexemeToken].
    + destruct Hl as [Hc Hrun]. rewrite (tokenize_run run c Hc Hrun).
      reflexivity.
    + rewrite tokenize_cons.
      destruct (isOperator_class c Hl) as [-> ->]. rewrite Hl.
      reflexivity.
    + rewrite tokenize_cons.
      destruct (isParen_class c Hl) as (-> & -> & ->). rewrite Hl.
      reflexivity.
  - destruct l as [c run|c|c].
    + left. destruct r as [|l' r']; [exact I|].
      inversion Hr; subst.
      apply lexemes_head_not_numeric; [assumption|].
      destruct l'; [contradiction|exact I|exact I].
    + right. apply (isOperator_excl c Hl).
    + right. apply (isParen_excl c Hl).
Qed.

Lemma tokenize_lexemes_witness :
  tokenize (str "2.5*(3+4)%")
  = Normal [TNumber (parseFloat (str "2.5")); TOp c_star; TParen c_lparen;
            TNumber (ofZ 3); TOp c_plus; TNumber (ofZ 4); TParen c_rparen;
            TOp c_pct].
Proof.
  apply (tokenize_lexemes
           [LNumber 50%N (str ".5"); LOp c_star; LParen c_lparen;
            LNumber 51%N []; LOp c_plus; LNumber 52%N []; LParen c_rparen;
            LOp c_pct]).
  - repeat constructor.
  - simpl. tauto.
Defined.

Lemma tokensOfAddSub_not_nil (e : AddSub) : tokensOfAddSub e <> [].
Proof.
  intros H. pose proof (grammar_value e) as Hv. rewrite H in Hv.
  discriminate.
Qed.

Lemma tokenize_Normal_admissible (s : jsstring) (l : list Token) :
  tokenize s = Normal l -> forallb isAdmissible s = true.
Proof.
  intros H. pose proof (tokenize_lexable s) as Hl.
  unfold lexable in Hl.
  destruct (forallb isAdmissible s); [reflexivity|].
  simpl in Hl. rewrite H in Hl. discriminate.
Qed.

(** X13: [evaluateMathExpressionSimple] returns the number [v] exactly
    when the trimmed input has at most 200 characters, its tokens write an
    expression of the grammar, and [v] is the value of that expression and
    is finite. *)
Theorem evaluate_returns_number_iff (expr : jsstring) (v : float) :
  evaluateMathExpressionSimple expr = Normal (Some v)
  <-> List.length (trim expr) <= 200
      /\ isFinite v = true
      /\ exists e, tokenize (trim expr) = Normal (tokensOfAddSub e)
                   /\ v = valueOfAddSub e.
Proof.
  unfold evaluateMathExpressionSimple, evaluateMathExpressionSimple_with,
    parseExpression.
  split.
  - intros H.
    destruct (200 <? List.length (trim expr)) eqn:Hlen; [discriminate|].
    apply Nat.ltb_ge in Hlen.
    destruct (match trim expr with [] => true | _ :: _ => false end);
      [discriminate|]. cbn [orb] in H.
    destruct (negb (forallb isAdmissible (trim expr))); [discriminate|].
    destruct (tokenize (trim expr)) as [tokens| |]; try discriminate.
    destruct (parseTokens tokens) as [r| |] eqn:Hp; try discriminate.
    destruct (isFinite r) eqn:Hf; try discriminate.
    injection H as ->.
    destruct (grammar_only tokens v Hp) as (e & -> & ->).
    repeat split; [exact Hlen|exact Hf|]. exists e. auto.
  - intros (Hlen & Hf & e & Ht & ->).
    apply Nat.ltb_ge in Hlen. rewrite Hlen.
    destruct (trim expr) as [|c r] eqn:Hs.
    { exfalso. apply (tokensOfAddSub_not_nil e).
      rewrite tokenize_nil in Ht. injection Ht as <-. reflexivity. }
    cbn [orb]. rewrite (tokenize_Normal_admissible _ _ Ht). cbn [negb].
    rewrite Ht, grammar_value, Hf. reflexivity.
Qed.

Lemma evaluate_returns_number_iff_witness :
  evaluateMathExpressionSimple (str "  -(2 + 3) * 4%  ")
  = Normal (Some (mul (neg (add (ofZ 2) (ofZ 3))) (div (ofZ 4) (ofZ 100)))).
Proof.
  apply (proj2 (evaluate_returns_number_iff (str "  -(2 + 3) * 4%  ") _)).
  split; [vm_compute; lia|]. split; [vm_compute; reflexivity|].
  exists (AS_one
            (MD_mul
               (MD_one (Pct_plain (U_neg (U_primary (P_paren
                  (AS_add
                     (AS_one (MD_one (Pct_plain (U_primary (P_number (ofZ 2))))))
                     (MD_one (Pct_plain (U_primary (P_number (ofZ 3)))))))))))
               (Pct_percent (U_primary (P_number (ofZ 4)))))).
  split; reflexivity.
Defined.
